(** * An in-memory file system simulator: model and verified properties

    Shallow embedding of [file_system.py].  Python objects live in a heap
    (a list of [TrieNode] records; an object reference is an index, and a
    freshly constructed object is appended at the end).  A node's [children]
    dictionary is a finite map from names to references, its [parent] an
    optional reference.  Every engine operation is a function from a state
    to a result that carries the new state together with the lines it
    prints. *)

From Stdlib Require Import String Ascii List Sorting.Sorted.
From stdpp Require Import base option list gmap strings fin_maps sorting.

Local Open Scope string_scope.
Local Open Scope list_scope.
Local Open Scope nat_scope.

(** ** Data model *)

(** [class TrieNode]: the constructor fills [children] with an empty
    dictionary and [content] with the empty string. *)
Record TrieNode := mkNode {
  name : string;
  is_file : bool;
  children : gmap string nat;
  parent : option nat;
  content : string
}.

Definition TrieNode_init (nm : string) (isf : bool) (par : option nat) : TrieNode :=
  {| name := nm; is_file := isf; children := ∅; parent := par; content := "" |}.

(** Reading through a reference that designates no object cannot happen in
    Python; the model answers with an empty node there, and [wf] below
    shows that no reachable state holds such a reference. *)
Global Instance TrieNode_inhabited : Inhabited TrieNode :=
  populate (TrieNode_init "" false None).

(** [class FileSystem]: the heap plus the two attributes [root] and
    [current]. *)
Record FileSystem := mkFS {
  heap : list TrieNode;
  root : nat;
  current : nat
}.

(** [FileSystem.__init__] *)
Definition FileSystem_init : FileSystem :=
  {| heap := [TrieNode_init "" false None]; root := 0; current := 0 |}.

Definition set_children (n : TrieNode) (cs : gmap string nat) : TrieNode :=
  {| name := name n; is_file := is_file n; children := cs;
     parent := parent n; content := content n |}.

Definition set_content (n : TrieNode) (text : string) : TrieNode :=
  {| name := name n; is_file := is_file n; children := children n;
     parent := parent n; content := text |}.

(** [p.children[k] = TrieNode(k, is_file=isf, parent=p)]: the new object is
    constructed first, then stored in the dictionary of [p]. *)
Definition add_child (h : list TrieNode) (p : nat) (k : string) (isf : bool)
  : list TrieNode :=
  let new_node := length h in
  let h1 := h ++ [TrieNode_init k isf (Some p)] in
  <[p := set_children (h1 !!! p) (<[k := new_node]> (children (h1 !!! p)))]> h1.

(** [del p.children[k]] *)
Definition del_child (h : list TrieNode) (p : nat) (k : string) : list TrieNode :=
  <[p := set_children (h !!! p) (delete k (children (h !!! p)))]> h.

(** [n.content = text] *)
Definition write_content (h : list TrieNode) (n : nat) (text : string)
  : list TrieNode :=
  <[n := set_content (h !!! n) text]> h.

(** ** Strings *)

Definition nl : string := String "010"%char "".

(** [s.split(sep)] for a one-character separator. *)
Fixpoint split (sep : ascii) (s : string) : list string :=
  match s with
  | EmptyString => [""]
  | String c s' =>
      if Ascii.eqb c sep then "" :: split sep s'
      else match split sep s' with
           | w :: ws => String c w :: ws
           | [] => [String c ""]
           end
  end.

(** [sep.join(l)] *)
Fixpoint join (sep : string) (l : list string) : string :=
  match l with
  | [] => ""
  | [x] => x
  | x :: rest => x +:+ sep +:+ join sep rest
  end.

(** ** Path resolution *)

(** [FileSystem._parse_path].  The local [current_node] that the source
    assigns in both branches is never read and is not returned. *)
Definition _parse_path (path : string) : list string :=
  match path with
  | EmptyString => []
  | String c rest =>
      let components :=
        if Ascii.eqb c "/" then split "/" rest else split "/" path in
      filter (λ c, c ≠ "") components
  end.

(** The loop of [FileSystem._traverse]; [last_comp] is [components[-1]] of
    the whole list. *)
Fixpoint _traverse_loop (h : list TrieNode) (last_comp : string)
    (current_node : nat) (components : list string) : option nat :=
  match components with
  | [] => Some current_node
  | comp :: rest =>
      if decide (comp = "..") then
        match parent (h !!! current_node) with
        | Some p => _traverse_loop h last_comp p rest
        | None => _traverse_loop h last_comp current_node rest
        end
      else if decide (comp = ".") then
        _traverse_loop h last_comp current_node rest
      else
        match children (h !!! current_node) !! comp with
        | Some c =>
            if is_file (h !!! c) && bool_decide (comp ≠ last_comp) then None
            else _traverse_loop h last_comp c rest
        | None => None
        end
  end.

(** [self.root if components and components[0] == '' else self.current] *)
Definition start_node (fs : FileSystem) (components : list string) : nat :=
  match components with
  | c :: _ => if decide (c = "") then root fs else current fs
  | [] => current fs
  end.

(** [FileSystem._traverse]; [None] is Python's [None]. *)
Definition _traverse (fs : FileSystem) (components : list string) : option nat :=
  _traverse_loop (heap fs) (List.last components "")
                 (start_node fs components) components.

(** ** Results of operations *)

Inductive exn := IndexError | LoopFuel.

Inductive res (A : Type) :=
  | Ok (a : A)
  | Raise (e : exn).
Arguments Ok {A} a.
Arguments Raise {A} e.

Definition res_bind {A B} (m : res A) (k : A → res B) : res B :=
  match m with
  | Ok a => k a
  | Raise e => Raise e
  end.

(** The loop of [FileSystem._create_directory]. *)
Fixpoint _create_loop (h : list TrieNode) (current_node : nat)
    (components : list string) : list TrieNode :=
  match components with
  | [] => h
  | comp :: rest =>
      if decide (comp = "..") then
        match parent (h !!! current_node) with
        | Some p => _create_loop h p rest
        | None => _create_loop h current_node rest
        end
      else if decide (comp = ".") then
        _create_loop h current_node rest
      else
        match children (h !!! current_node) !! comp with
        | None => _create_loop (add_child h current_node comp false) (length h) rest
        | Some c => _create_loop h c rest
        end
  end.

(** [FileSystem._create_directory]: [components[0]] raises [IndexError] on
    an empty list. *)
Definition _create_directory (fs : FileSystem) (components : list string)
  : res FileSystem :=
  match components with
  | [] => Raise IndexError
  | c :: _ =>
      let start := if decide (c = "") then root fs else current fs in
      Ok {| heap := _create_loop (heap fs) start components;
            root := root fs; current := current fs |}
  end.

(** ** The eight operations

    Each operation returns the new state and the list of lines it prints
    (one entry per [print] call). *)

Definition with_heap (fs : FileSystem) (h : list TrieNode) : FileSystem :=
  {| heap := h; root := root fs; current := current fs |}.

Definition with_current (fs : FileSystem) (n : nat) : FileSystem :=
  {| heap := heap fs; root := root fs; current := n |}.

(** [FileSystem.mkdir] *)
Definition mkdir (fs : FileSystem) (path : string) : res (FileSystem * list string) :=
  let components := _parse_path path in
  match _traverse fs components with
  | None => res_bind (_create_directory fs components) (λ fs', Ok (fs', []))
  | Some _ => Ok (fs, [])
  end.

(** [FileSystem.touch] *)
Definition touch (fs : FileSystem) (path : string) : FileSystem * list string :=
  let components := _parse_path path in
  match components with
  | [] => (fs, ["Invalid file name"])
  | _ :: _ =>
      let dir_components := List.removelast components in
      let file_name := List.last components "" in
      match _traverse fs dir_components with
      | Some dir_node =>
          if negb (is_file (heap fs !!! dir_node)) then
            match children (heap fs !!! dir_node) !! file_name with
            | None =>
                (with_heap fs (add_child (heap fs) dir_node file_name true),
                 ["File '" +:+ file_name +:+ "' created"])
            | Some _ => (fs, ["File '" +:+ file_name +:+ "' already exists"])
            end
          else (fs, ["Invalid path: " +:+ join "/" components])
      | None => (fs, ["Invalid path: " +:+ join "/" components])
      end
  end.

(** [sorted] on strings: ascending in the order of the characters' codes. *)
Definition sorted (l : list string) : list string := merge_sort String.le l.

(** One element of the list comprehension of [ls]. *)
Definition ls_entry (h : list TrieNode) (kv : string * nat) : string :=
  if negb (is_file (h !!! kv.2)) then kv.1 +:+ "/" else kv.1.

Definition ls_contents (h : list TrieNode) (target_node : nat) : list string :=
  ls_entry h <$> map_to_list (children (h !!! target_node)).

(** ['\n'.join(sorted(contents)) or "Empty directory"] *)
Definition ls_text (contents : list string) : string :=
  let text := join nl (sorted contents) in
  if decide (text = "") then "Empty directory" else text.

Definition ls_target (fs : FileSystem) (components : list string) : option nat :=
  match components with
  | [] => Some (current fs)
  | _ :: _ => _traverse fs components
  end.

(** [FileSystem.ls] *)
Definition ls (fs : FileSystem) (path : string) : FileSystem * list string :=
  let components := _parse_path path in
  match ls_target fs components with
  | None => (fs, ["Path not found: " +:+ join "/" components])
  | Some target_node =>
      if is_file (heap fs !!! target_node) then
        (fs, [name (heap fs !!! target_node)])
      else (fs, [ls_text (ls_contents (heap fs) target_node)])
  end.

(** [FileSystem.cd] *)
Definition cd (fs : FileSystem) (path : string) : FileSystem * list string :=
  if decide (path = "/") then (with_current fs (root fs), [])
  else
    let components := _parse_path path in
    match _traverse fs components with
    | Some target_node =>
        if negb (is_file (heap fs !!! target_node)) then
          (with_current fs target_node, [])
        else (fs, ["Directory not found: " +:+ join "/" components])
    | None => (fs, ["Directory not found: " +:+ join "/" components])
    end.

(** The [while node.parent] loop of [FileSystem.pwd].  The recursion is
    bounded by [fuel]; running out of it stands for a loop that does not
    end. *)
Fixpoint pwd_loop (fuel : nat) (h : list TrieNode) (node : nat)
    (path : list string) : res (list string) :=
  match parent (h !!! node) with
  | None => Ok path
  | Some p =>
      match fuel with
      | 0 => Raise LoopFuel
      | S fuel' => pwd_loop fuel' h p (path ++ [name (h !!! node)])
      end
  end.

(** [FileSystem.pwd] *)
Definition pwd (fs : FileSystem) : res (FileSystem * list string) :=
  res_bind (pwd_loop (length (heap fs)) (heap fs) (current fs) [])
           (λ path, Ok (fs, ["/" +:+ join "/" (List.rev path)])).

(** [FileSystem.cat] *)
Definition cat (fs : FileSystem) (path : string) : FileSystem * list string :=
  let components := _parse_path path in
  match _traverse fs components with
  | Some file_node =>
      if is_file (heap fs !!! file_node) then
        (fs, [content (heap fs !!! file_node)])
      else (fs, ["File not found: " +:+ join "/" components])
  | None => (fs, ["File not found: " +:+ join "/" components])
  end.

(** The write operation: the redirect branch of the [echo] command in
    [main], from the point where [text] and [filepath] are known. *)
Definition write (fs : FileSystem) (filepath text : string)
  : FileSystem * list string :=
  let components := _parse_path filepath in
  match _traverse fs components with
  | Some file_node =>
      if is_file (heap fs !!! file_node) then
        (with_heap fs (write_content (heap fs) file_node text),
         ["Written to " +:+ filepath])
      else (fs, ["File not found: " +:+ filepath])
  | None => (fs, ["File not found: " +:+ filepath])
  end.

(** [FileSystem.rm] *)
Definition rm (fs : FileSystem) (path : string) : FileSystem * list string :=
  let components := _parse_path path in
  match components with
  | [] => (fs, ["Invalid path"])
  | _ :: _ =>
      match _traverse fs (List.removelast components) with
      | Some node =>
          match children (heap fs !!! node) !! List.last components "" with
          | Some _ =>
              (with_heap fs (del_child (heap fs) node (List.last components "")),
               ["Removed: " +:+ join "/" components])
          | None => (fs, ["Path not found: " +:+ join "/" components])
          end
      | None => (fs, ["Path not found: " +:+ join "/" components])
      end
  end.

(** ** Command sequences *)

Inductive command :=
  | Mkdir (path : string)
  | Touch (path : string)
  | Ls (path : string)
  | Cd (path : string)
  | Pwd
  | Cat (path : string)
  | Write (filepath text : string)
  | Rm (path : string).

Definition exec (c : command) (fs : FileSystem) : res (FileSystem * list string) :=
  match c with
  | Mkdir p => mkdir fs p
  | Touch p => Ok (touch fs p)
  | Ls p => Ok (ls fs p)
  | Cd p => Ok (cd fs p)
  | Pwd => pwd fs
  | Cat p => Ok (cat fs p)
  | Write p t => Ok (write fs p t)
  | Rm p => Ok (rm fs p)
  end.

Fixpoint run (cmds : list command) (fs : FileSystem)
  : res (FileSystem * list string) :=
  match cmds with
  | [] => Ok (fs, [])
  | c :: rest =>
      res_bind (exec c fs) (λ r1,
        res_bind (run rest r1.1) (λ r2, Ok (r2.1, r1.2 ++ r2.2)))
  end.

(** The states that some sequence of operations produces from the initial
    tree. *)
Inductive reachable : FileSystem → Prop :=
  | reachable_init : reachable FileSystem_init
  | reachable_step fs c fs' out :
      reachable fs → exec c fs = Ok (fs', out) → reachable fs'.

Definition state_of (r : res (FileSystem * list string)) : FileSystem :=
  match r with
  | Ok (fs, _) => fs
  | Raise _ => FileSystem_init
  end.

Definition output_of (r : res (FileSystem * list string)) : list string :=
  match r with
  | Ok (_, out) => out
  | Raise _ => []
  end.

(** ** Invariants of the object graph *)

(** A node whose name is neither ['.'] nor ['..']. *)
Definition nav (h : list TrieNode) (i : nat) : Prop :=
  name (h !!! i) ≠ "." ∧ name (h !!! i) ≠ "..".

(** Every stored reference designates an object of the heap; a dictionary
    key is the name of the node it leads to; a parent was constructed
    before its child and is never a node called ['.'] or ['..']. *)
Record heap_ok (h : list TrieNode) : Prop := {
  ok_child i k c :
    i < length h → children (h !!! i) !! k = Some c →
    c < length h ∧ name (h !!! c) = k;
  ok_parent i p :
    i < length h → parent (h !!! i) = Some p → p < i ∧ nav h p
}.

(** [h'] has every object of [h], with the same name, kind and parent. *)
Record heap_ext (h h' : list TrieNode) : Prop := {
  ext_length : length h ≤ length h';
  ext_name i : i < length h → name (h' !!! i) = name (h !!! i);
  ext_is_file i : i < length h → is_file (h' !!! i) = is_file (h !!! i);
  ext_parent i : i < length h → parent (h' !!! i) = parent (h !!! i)
}.

(** [h'] extends [h] and no dictionary of [h] lost or changed an entry. *)
Record heap_le (h h' : list TrieNode) : Prop := {
  le_ext : heap_ext h h';
  le_children i : i < length h → children (h !!! i) ⊆ children (h' !!! i)
}.

Record wf (fs : FileSystem) : Prop := {
  wf_heap : heap_ok (heap fs);
  wf_root : root fs < length (heap fs);
  wf_root_nav : nav (heap fs) (root fs);
  wf_root_dir : is_file (heap fs !!! root fs) = false;
  wf_cur : current fs < length (heap fs);
  wf_cur_nav : nav (heap fs) (current fs);
  wf_cur_dir : is_file (heap fs !!! current fs) = false
}.

(** Nodes that can be reached from [r] by following [children] links. *)
Inductive linked (h : list TrieNode) (r : nat) : nat → Prop :=
  | linked_refl : linked h r r
  | linked_child p k c :
      linked h r p → children (h !!! p) !! k = Some c → linked h r c.

Definition all_linked (h : list TrieNode) (r : nat) : Prop :=
  ∀ i, i < length h → linked h r i.

Definition is_rm (c : command) : bool :=
  match c with Rm _ => true | _ => false end.

(** ** The listing as the specification words it

    The children's names are put in lexicographic order first, and the
    ['/'] mark of a directory is appended afterwards.  [ls_contents] and
    [ls_text] above are what the source does: mark first, sort after. *)

Definition name_le (a b : string * nat) : Prop := String.le a.1 b.1.

Global Instance name_le_dec : RelDecision name_le.
Proof. intros a b. unfold name_le. apply _. Defined.

Definition ls_sorted_by_name (h : list TrieNode) (target_node : nat) : list string :=
  ls_entry h <$> merge_sort name_le (map_to_list (children (h !!! target_node))).

(** ** Tab completion *)

Definition commands : list string :=
  ["mkdir"; "touch"; "ls"; "cd"; "pwd"; "exit"; "echo"; "clear"; "cat"; "rm"].

(** [complete].  [components] stands for
    [readline.get_line_buffer().split()], the words of the line typed so
    far; [state] is the index readline asks for (0, 1, 2, ...).  Indexing a
    list beyond its end and [components[-1]] on an empty list raise
    [IndexError].  The function resolves the last word in a tree it has just
    constructed with [FileSystem()]. *)
Definition complete (components : list string) (text : string) (state : nat)
  : res (option string) :=
  if decide (length components = 1) then
    match ((λ cmd, cmd +:+ " ")
             <$> filter (λ cmd, String.prefix text cmd = true) commands) !! state with
    | Some s => Ok (Some s)
    | None => Raise IndexError
    end
  else
    match components with
    | [] => Raise IndexError
    | _ :: _ =>
        let path := List.last components "" in
        let fs := FileSystem_init in
        match _traverse fs (_parse_path path) with
        | Some node =>
            match ((λ kv : string * nat,
                      kv.1 +:+ (if negb (is_file (heap fs !!! kv.2)) then "/" else ""))
                     <$> filter (λ kv : string * nat, String.prefix text kv.1 = true)
                           (map_to_list (children (heap fs !!! node)))) !! state with
            | Some s => Ok (Some s)
            | None => Raise IndexError
            end
        | None => Ok None
        end
    end.

(** ** Further predicates used in the statements *)

(** The character [c] occurs in [s]. *)
Fixpoint contains (c : ascii) (s : string) : bool :=
  match s with
  | EmptyString => false
  | String a s' => Ascii.eqb a c || contains c s'
  end.

(** A path component as the parser produces it. *)
Definition component (s : string) : Prop := s ≠ "" ∧ contains "/" s = false.

(** A component that the walks treat as a child name. *)
Definition plain (s : string) : Prop := s ≠ "." ∧ s ≠ "..".

(** Every dictionary entry leads to a node whose [parent] is the owner of
    the dictionary. *)
Definition heap_links (h : list TrieNode) : Prop :=
  ∀ i k c, i < length h → children (h !!! i) !! k = Some c →
           parent (h !!! c) = Some i.

(** The names met when following [parent] from a node up to a node
    without parent, nearest first. *)
Inductive ancestry (h : list TrieNode) : nat → list string → Prop :=
  | ancestry_top n : parent (h !!! n) = None → ancestry h n []
  | ancestry_up n p l :
      parent (h !!! n) = Some p → ancestry h p l →
      ancestry h n (name (h !!! n) :: l).

(** One or more elementary changes of the heap, each under the conditions
    in which the operations perform it. *)
Inductive heap_steps : list TrieNode → list TrieNode → Prop :=
  | steps_refl h : heap_steps h h
  | steps_add h p k isf h' :
      heap_ok h → p < length h → nav h p → children (h !!! p) !! k = None →
      heap_steps (add_child h p k isf) h' → heap_steps h h'
  | steps_del h p k h' :
      heap_ok h → heap_steps (del_child h p k) h' → heap_steps h h'
  | steps_write h n text h' :
      heap_ok h → heap_steps (write_content h n text) h' → heap_steps h h'.

(** The command is an [rm] that finds its entry, and the node of that
    entry is the cursor's node or one of its ancestors. *)
Definition rm_detaches_cursor (c : command) (fs : FileSystem) : Prop :=
  ∃ path d x,
    c = Rm path ∧ _parse_path path ≠ [] ∧
    _traverse fs (List.removelast (_parse_path path)) = Some d ∧
    children (heap fs !!! d) !! List.last (_parse_path path) "" = Some x ∧
    linked (heap fs) x (current fs).

(** ** Facts about the heap primitives *)

Lemma lookup_out_of_range (h : list TrieNode) i :
  length h ≤ i → h !!! i = TrieNode_init "" false None.
Proof.
  intros Hi. by rewrite list_lookup_total_alt, lookup_ge_None_2.
Qed.

Lemma lookup_add_child h p k isf i :
  p < length h →
  add_child h p k isf !!! i =
    if decide (i = p) then
      set_children (h !!! p) (<[k := length h]> (children (h !!! p)))
    else if decide (i = length h) then TrieNode_init k isf (Some p)
    else h !!! i.
Proof.
  intros Hp. unfold add_child.
  rewrite list_lookup_total_insert, length_app. simpl.
  rewrite (lookup_total_app_l h _ p) by done.
  repeat case_decide; try lia; subst; try done.
  - rewrite lookup_total_app_r by lia. by rewrite Nat.sub_diag.
  - destruct (decide (i < length h)).
    + by rewrite lookup_total_app_l.
    + rewrite !lookup_out_of_range; [done | lia |].
      rewrite length_app. simpl. lia.
Qed.

Lemma length_add_child h p k isf : length (add_child h p k isf) = S (length h).
Proof. unfold add_child. rewrite length_insert, length_app. simpl. lia. Qed.

Lemma lookup_del_child h p k i :
  del_child h p k !!! i =
    if decide (i = p) then set_children (h !!! p) (delete k (children (h !!! p)))
    else h !!! i.
Proof.
  unfold del_child. rewrite list_lookup_total_insert.
  destruct (decide (i = p)) as [->|Hne].
  - case_decide as Hd; [done |].
    assert (length h ≤ p) as Hge by (destruct (decide (p < length h)); [tauto | lia]).
    rewrite lookup_out_of_range by done. unfold set_children. simpl.
    by rewrite delete_empty.
  - case_decide as Hd; [| done]. destruct Hd as [-> _]. done.
Qed.

Lemma length_del_child h p k : length (del_child h p k) = length h.
Proof. unfold del_child. by rewrite length_insert. Qed.

Lemma lookup_write_content h n text i :
  write_content h n text !!! i =
    if decide (i = n ∧ n < length h) then set_content (h !!! n) text
    else h !!! i.
Proof.
  unfold write_content. rewrite list_lookup_total_insert.
  case_decide as H1; case_decide as H2; try done.
  - destruct H1 as [-> ?]. tauto.
  - destruct H2 as [-> ?]. tauto.
Qed.

Lemma length_write_content h n text : length (write_content h n text) = length h.
Proof. unfold write_content. by rewrite length_insert. Qed.

(** ** Heap extension *)

Lemma heap_ext_refl h : heap_ext h h.
Proof. by split. Qed.

Lemma heap_ext_trans h1 h2 h3 : heap_ext h1 h2 → heap_ext h2 h3 → heap_ext h1 h3.
Proof.
  intros [L1 N1 F1 P1] [L2 N2 F2 P2]. split.
  - lia.
  - intros i Hi. rewrite N2 by lia. by apply N1.
  - intros i Hi. rewrite F2 by lia. by apply F1.
  - intros i Hi. rewrite P2 by lia. by apply P1.
Qed.

Lemma heap_le_refl h : heap_le h h.
Proof. split; [apply heap_ext_refl | done]. Qed.

Lemma heap_le_trans h1 h2 h3 : heap_le h1 h2 → heap_le h2 h3 → heap_le h1 h3.
Proof.
  intros [E1 C1] [E2 C2]. split.
  - by eapply heap_ext_trans.
  - intros i Hi. etrans; [by apply C1 |]. apply C2.
    pose proof (ext_length _ _ E1). lia.
Qed.

Lemma nav_ext h h' i : heap_ext h h' → i < length h → nav h i → nav h' i.
Proof. intros E Hi [? ?]. unfold nav. by rewrite (ext_name _ _ E). Qed.

Lemma add_child_le h p k isf :
  p < length h → children (h !!! p) !! k = None →
  heap_le h (add_child h p k isf).
Proof.
  intros Hp Hk. split; [split |].
  - rewrite length_add_child. lia.
  - intros i Hi. rewrite lookup_add_child by done.
    repeat case_decide; subst; try done; lia.
  - intros i Hi. rewrite lookup_add_child by done.
    repeat case_decide; subst; try done; lia.
  - intros i Hi. rewrite lookup_add_child by done.
    repeat case_decide; subst; try done; lia.
  - intros i Hi. rewrite lookup_add_child by done.
    repeat case_decide; subst; try done; try lia.
    simpl. by apply insert_subseteq.
Qed.

Lemma add_child_ok h p k isf :
  heap_ok h → p < length h → nav h p → children (h !!! p) !! k = None →
  heap_ok (add_child h p k isf).
Proof.
  intros [Hc Hpar] Hp Hnav Hk.
  pose proof (le_ext _ _ (add_child_le h p k isf Hp Hk)) as E.
  split.
  - intros i k' c. rewrite length_add_child. intros Hi.
    rewrite (lookup_add_child _ _ _ _ i) by done.
    destruct (decide (i = p)) as [->|Hip]; simpl.
    + destruct (decide (k' = k)) as [->|Hkk].
      * rewrite lookup_insert_eq. intros [= <-]. split; [lia |].
        rewrite lookup_add_child by done.
        rewrite decide_False by lia. by rewrite decide_True.
      * rewrite lookup_insert_ne by done. intros Hl.
        destruct (Hc _ _ _ Hp Hl) as [Hlt Hnm]. split; [lia |].
        by rewrite (ext_name _ _ E).
    + destruct (decide (i = length h)) as [->|Hil]; simpl.
      * by rewrite lookup_empty.
      * intros Hl. assert (i < length h) as Hi' by lia.
        destruct (Hc _ _ _ Hi' Hl) as [Hlt Hnm]. split; [lia |].
        by rewrite (ext_name _ _ E).
  - intros i q. rewrite length_add_child. intros Hi.
    rewrite (lookup_add_child _ _ _ _ i) by done.
    destruct (decide (i = p)) as [->|Hip]; simpl.
    + intros Hq. destruct (Hpar _ _ Hp Hq) as [Hlt Hn].
      split; [done |]. eapply nav_ext; [done | lia | done].
    + destruct (decide (i = length h)) as [->|Hil]; simpl.
      * intros [= <-]. split; [done |]. by eapply nav_ext.
      * intros Hq. assert (i < length h) as Hi' by lia.
        destruct (Hpar _ _ Hi' Hq) as [Hlt Hn].
        split; [done |]. eapply nav_ext; [done | lia | done].
Qed.

Lemma del_child_ext h p k : heap_ext h (del_child h p k).
Proof.
  split.
  - by rewrite length_del_child.
  - intros i _. rewrite lookup_del_child. by case_decide; subst.
  - intros i _. rewrite lookup_del_child. by case_decide; subst.
  - intros i _. rewrite lookup_del_child. by case_decide; subst.
Qed.

Lemma del_child_ok h p k : heap_ok h → heap_ok (del_child h p k).
Proof.
  intros [Hc Hpar]. pose proof (del_child_ext h p k) as E. split.
  - intros i k' c. rewrite length_del_child. intros Hi.
    rewrite (lookup_del_child _ _ _ i).
    intros Hl.
    assert (children (h !!! i) !! k' = Some c) as Hl'.
    { case_decide; subst; [| done]. simpl in Hl.
      by apply lookup_delete_Some in Hl as [_ ?]. }
    destruct (Hc _ _ _ Hi Hl') as [Hlt Hnm]. split; [done |].
    by rewrite (ext_name _ _ E).
  - intros i q. rewrite length_del_child. intros Hi.
    rewrite (ext_parent _ _ E) by done. intros Hq.
    destruct (Hpar _ _ Hi Hq) as [Hlt Hn].
    split; [done |]. eapply nav_ext; [done | lia | done].
Qed.

Lemma write_content_ext h n text : heap_ext h (write_content h n text).
Proof.
  split.
  - by rewrite length_write_content.
  - intros i _. rewrite lookup_write_content. by case_decide as H; [destruct H as [-> _] |].
  - intros i _. rewrite lookup_write_content. by case_decide as H; [destruct H as [-> _] |].
  - intros i _. rewrite lookup_write_content. by case_decide as H; [destruct H as [-> _] |].
Qed.

Lemma write_content_children h n text i :
  children (write_content h n text !!! i) = children (h !!! i).
Proof.
  rewrite lookup_write_content. by case_decide as H; [destruct H as [-> _] |].
Qed.

Lemma write_content_ok h n text : heap_ok h → heap_ok (write_content h n text).
Proof.
  intros [Hc Hpar]. pose proof (write_content_ext h n text) as E. split.
  - intros i k c. rewrite length_write_content, write_content_children.
    intros Hi Hl. destruct (Hc _ _ _ Hi Hl) as [Hlt Hnm]. split; [done |].
    by rewrite (ext_name _ _ E).
  - intros i q. rewrite length_write_content. intros Hi.
    rewrite (ext_parent _ _ E) by done. intros Hq.
    destruct (Hpar _ _ Hi Hq) as [Hlt Hn].
    split; [done |]. eapply nav_ext; [done | lia | done].
Qed.

(** ** The two walks *)

Lemma traverse_loop_nav h l comps : ∀ cur n,
  heap_ok h → cur < length h → nav h cur →
  _traverse_loop h l cur comps = Some n → n < length h ∧ nav h n.
Proof.
  induction comps as [|comp rest IH]; intros cur n Hok Hcur Hnav; simpl.
  - by intros [= <-].
  - destruct (decide (comp = "..")) as [->|Hdd].
    { destruct (parent (h !!! cur)) as [p|] eqn:Hp; [| by apply IH].
      destruct (ok_parent _ Hok _ _ Hcur Hp) as [Hlt Hn].
      apply IH; [done | lia | done]. }
    destruct (decide (comp = ".")) as [->|Hd]; [by apply IH |].
    destruct (children (h !!! cur) !! comp) as [c|] eqn:Hc; [| done].
    destruct (ok_child _ Hok _ _ _ Hcur Hc) as [Hlt Hnm].
    destruct (is_file (h !!! c) && bool_decide (comp ≠ l)); [done |].
    apply IH; [done | done |]. unfold nav. by rewrite Hnm.
Qed.

Lemma create_loop_ok comps : ∀ h cur,
  heap_ok h → cur < length h → nav h cur →
  heap_ok (_create_loop h cur comps) ∧ heap_le h (_create_loop h cur comps).
Proof.
  induction comps as [|comp rest IH]; intros h cur Hok Hcur Hnav; simpl.
  - split; [done | apply heap_le_refl].
  - destruct (decide (comp = "..")) as [->|Hdd].
    { destruct (parent (h !!! cur)) as [p|] eqn:Hp; [| by apply IH].
      destruct (ok_parent _ Hok _ _ Hcur Hp) as [Hlt Hn].
      apply IH; [done | lia | done]. }
    destruct (decide (comp = ".")) as [->|Hd]; [by apply IH |].
    destruct (children (h !!! cur) !! comp) as [c|] eqn:Hc.
    + destruct (ok_child _ Hok _ _ _ Hcur Hc) as [Hlt Hnm].
      apply IH; [done | done |]. unfold nav. by rewrite Hnm.
    + pose proof (add_child_ok h cur comp false Hok Hcur Hnav Hc) as Hok1.
      pose proof (add_child_le h cur comp false Hcur Hc) as Hle1.
      destruct (IH (add_child h cur comp false) (length h)) as [Hok2 Hle2].
      * done.
      * rewrite length_add_child. lia.
      * unfold nav. rewrite lookup_add_child by done.
        rewrite decide_False by lia. by rewrite decide_True.
      * split; [done | by eapply heap_le_trans].
Qed.

(** Running the create walk a second time from the same node adds
    nothing. *)
Lemma create_loop_idem comps : ∀ h cur,
  heap_ok h → cur < length h → nav h cur →
  _create_loop (_create_loop h cur comps) cur comps = _create_loop h cur comps.
Proof.
  induction comps as [|comp rest IH]; intros h cur Hok Hcur Hnav; [done |].
  pose proof (create_loop_ok (comp :: rest) h cur Hok Hcur Hnav) as [_ Hle].
  revert Hle. simpl.
  destruct (decide (comp = "..")) as [->|Hdd].
  { destruct (parent (h !!! cur)) as [p|] eqn:Hp; intros Hle;
      rewrite (ext_parent _ _ (le_ext _ _ Hle)), Hp by done.
    - destruct (ok_parent _ Hok _ _ Hcur Hp) as [Hlt Hn].
      apply IH; [done | lia | done].
    - by apply IH. }
  destruct (decide (comp = ".")) as [->|Hd]; [intros _; by apply IH |].
  destruct (children (h !!! cur) !! comp) as [c|] eqn:Hc; intros Hle.
  - rewrite (lookup_weaken _ _ _ _ Hc (le_children _ _ Hle _ Hcur)).
    destruct (ok_child _ Hok _ _ _ Hcur Hc) as [Hlt Hnm].
    apply IH; [done | done |]. unfold nav. by rewrite Hnm.
  - pose proof (add_child_ok h cur comp false Hok Hcur Hnav Hc) as Hok1.
    assert (length h < length (add_child h cur comp false)) as Hlen
      by (rewrite length_add_child; lia).
    assert (nav (add_child h cur comp false) (length h)) as Hnav1.
    { unfold nav. rewrite lookup_add_child by done.
      rewrite decide_False by lia. by rewrite decide_True. }
    pose proof (create_loop_ok rest _ _ Hok1 Hlen Hnav1) as [_ Hle2].
    assert (children (add_child h cur comp false !!! cur) !! comp
            = Some (length h)) as Hnew.
    { rewrite lookup_add_child by done. rewrite decide_True by done.
      simpl. by rewrite lookup_insert_eq. }
    rewrite (lookup_weaken _ _ _ _ Hnew (le_children _ _ Hle2 cur ltac:(lia))).
    by apply IH.
Qed.

(** ** Parsed paths *)

Lemma parse_path_nonempty path : Forall (λ c, c ≠ "") (_parse_path path).
Proof.
  destruct path as [|c rest]; [constructor |]. unfold _parse_path.
  apply Forall_forall. intros x Hx. by apply list_elem_of_filter in Hx as [? _].
Qed.

(** The root anchor of the two walks never applies to a parsed path: the
    parser has removed every empty component. *)
Lemma start_node_parsed fs path : start_node fs (_parse_path path) = current fs.
Proof.
  pose proof (parse_path_nonempty path) as H. unfold start_node.
  destruct (_parse_path path) as [|c ?]; [done |].
  apply Forall_cons in H as [Hc _]. by rewrite decide_False.
Qed.

Lemma traverse_nil fs : _traverse fs [] = Some (current fs).
Proof. done. Qed.

Lemma start_node_wf fs comps :
  wf fs → start_node fs comps < length (heap fs) ∧ nav (heap fs) (start_node fs comps).
Proof.
  intros W. unfold start_node. destruct comps as [|c ?].
  - split; [apply (wf_cur _ W) | apply (wf_cur_nav _ W)].
  - case_decide.
    + split; [apply (wf_root _ W) | apply (wf_root_nav _ W)].
    + split; [apply (wf_cur _ W) | apply (wf_cur_nav _ W)].
Qed.

Lemma traverse_wf fs comps n :
  wf fs → _traverse fs comps = Some n → n < length (heap fs) ∧ nav (heap fs) n.
Proof.
  intros W. unfold _traverse. destruct (start_node_wf fs comps W) as [Hs Hn].
  by apply traverse_loop_nav; [apply (wf_heap _ W) | |].
Qed.

(** ** Every reachable state is well formed *)

Lemma wf_init : wf FileSystem_init.
Proof.
  split; simpl; try lia; try done.
  split; simpl.
  - intros i k c Hi. assert (i = 0) as -> by lia. simpl. by rewrite lookup_empty.
  - intros i p Hi. assert (i = 0) as -> by lia. done.
Qed.

Lemma wf_with_heap fs h' :
  wf fs → heap_ok h' → heap_ext (heap fs) h' → wf (with_heap fs h').
Proof.
  intros [Hok Hr Hrn Hrd Hc Hcn Hcd] Hok' E. split; simpl.
  - done.
  - pose proof (ext_length _ _ E). lia.
  - by eapply nav_ext.
  - by rewrite (ext_is_file _ _ E).
  - pose proof (ext_length _ _ E). lia.
  - by eapply nav_ext.
  - by rewrite (ext_is_file _ _ E).
Qed.

Lemma create_directory_wf fs comps fs' :
  wf fs → _create_directory fs comps = Ok fs' → wf fs'.
Proof.
  intros W. unfold _create_directory. destruct comps as [|c rest]; [done |].
  intros [= <-].
  destruct (start_node_wf fs (c :: rest) W) as [Hs Hn]. simpl in Hs, Hn.
  destruct (create_loop_ok (c :: rest) (heap fs) _ (wf_heap _ W) Hs Hn) as [Hok Hle].
  apply (wf_with_heap fs _ W Hok (le_ext _ _ Hle)).
Qed.

Lemma mkdir_wf fs path fs' out : wf fs → mkdir fs path = Ok (fs', out) → wf fs'.
Proof.
  intros W. unfold mkdir.
  destruct (_traverse fs (_parse_path path)); [by intros [= <- _] |].
  destruct (_create_directory fs (_parse_path path)) as [fs1|] eqn:Hc; [| done].
  simpl. intros [= <- _]. by eapply create_directory_wf.
Qed.

Lemma touch_wf fs path : wf fs → wf (touch fs path).1.
Proof.
  intros W. unfold touch. destruct (_parse_path path) as [|c rest]; [done |].
  destruct (_traverse fs _) as [d|] eqn:Ht; [| done].
  destruct (traverse_wf _ _ _ W Ht) as [Hd Hn].
  destruct (is_file (heap fs !!! d)); [done |]. simpl.
  destruct (children (heap fs !!! d) !! _) eqn:Hk; [done |]. simpl.
  apply wf_with_heap; [done | |].
  - by apply add_child_ok; [apply (wf_heap _ W) | | |].
  - by apply le_ext, add_child_le.
Qed.

Lemma ls_state fs path : (ls fs path).1 = fs.
Proof.
  unfold ls. destruct (ls_target _ _); [| done]. by destruct (is_file _).
Qed.

Lemma cat_state fs path : (cat fs path).1 = fs.
Proof.
  unfold cat. destruct (_traverse _ _); [| done]. by destruct (is_file _).
Qed.

Lemma cd_wf fs path : wf fs → wf (cd fs path).1.
Proof.
  intros W. unfold cd. case_decide.
  - destruct W. by split.
  - destruct (_traverse fs _) as [t|] eqn:Ht; [| done].
    destruct (traverse_wf _ _ _ W Ht) as [Hd Hn].
    destruct (is_file (heap fs !!! t)) eqn:Hf; [done |]. simpl.
    destruct W. by split.
Qed.

Lemma write_wf fs path text : wf fs → wf (write fs path text).1.
Proof.
  intros W. unfold write. destruct (_traverse fs _) as [t|]; [| done].
  destruct (is_file (heap fs !!! t)); [| done]. simpl.
  apply wf_with_heap; [done | |].
  - apply write_content_ok, (wf_heap _ W).
  - apply write_content_ext.
Qed.

Lemma rm_wf fs path : wf fs → wf (rm fs path).1.
Proof.
  intros W. unfold rm. destruct (_parse_path path) as [|c rest]; [done |].
  destruct (_traverse fs _) as [d|]; [| done].
  destruct (children (heap fs !!! d) !! _); [| done]. simpl.
  apply wf_with_heap; [done | |].
  - apply del_child_ok, (wf_heap _ W).
  - apply del_child_ext.
Qed.

Lemma pwd_state fs fs' out : pwd fs = Ok (fs', out) → fs' = fs.
Proof.
  unfold pwd. destruct (pwd_loop _ _ _ _); [| done]. simpl. by intros [= <- _].
Qed.

Lemma exec_wf c fs fs' out : wf fs → exec c fs = Ok (fs', out) → wf fs'.
Proof.
  intros W. destruct c; simpl.
  - by apply mkdir_wf.
  - intros [= H]. change fs' with (fs', out).1. rewrite <- H. by apply touch_wf.
  - intros [= H]. change fs' with (fs', out).1. by rewrite <- H, ls_state.
  - intros [= H]. change fs' with (fs', out).1. rewrite <- H. by apply cd_wf.
  - intros ->%pwd_state. done.
  - intros [= H]. change fs' with (fs', out).1. by rewrite <- H, cat_state.
  - intros [= H]. change fs' with (fs', out).1. rewrite <- H. by apply write_wf.
  - intros [= H]. change fs' with (fs', out).1. rewrite <- H. by apply rm_wf.
Qed.

Lemma reachable_wf fs : reachable fs → wf fs.
Proof.
  induction 1 as [|fs c fs' out _ IH He]; [apply wf_init |].
  by eapply exec_wf.
Qed.

Lemma reachable_run cmds : ∀ fs fs' out,
  reachable fs → run cmds fs = Ok (fs', out) → reachable fs'.
Proof.
  induction cmds as [|c rest IH]; intros fs fs' out R; simpl.
  - by intros [= <- _].
  - destruct (exec c fs) as [[fs1 o1]|] eqn:He; [| done]. simpl.
    destruct (run rest fs1) as [[fs2 o2]|] eqn:Hr; [| done]. simpl.
    intros [= <- _]. eapply IH; [| done]. by eapply reachable_step.
Qed.

Lemma reachable_state_of cmds : reachable (state_of (run cmds FileSystem_init)).
Proof.
  destruct (run cmds FileSystem_init) as [[fs out]|e] eqn:Hr; simpl.
  - eapply reachable_run; [apply reachable_init | done].
  - apply reachable_init.
Qed.

(** ** Anchoring of absolute paths *)

(** C1 (the code departs from the claim).  The claim anchors a path that
    begins with ['/'] at the root.  In the code both walks start at the
    cursor for every parsed path, whatever its first character: with the
    cursor in [/a], the path ['/a'] does not resolve although ['a'] resolves
    from the root, and [mkdir /b] creates [b] under the cursor and not under
    the root. *)
Theorem C1_absolute_path_starts_at_cursor :
  (∀ fs path, start_node fs (_parse_path path) = current fs) ∧
  let fs := state_of (run [Mkdir "a"; Cd "a"] FileSystem_init) in
  current fs ≠ root fs ∧
  _traverse fs (_parse_path "/a") = None ∧
  _traverse (with_current fs (root fs)) (_parse_path "a") = Some (current fs) ∧
  let fs' := state_of (mkdir fs "/b") in
  children (heap fs' !!! root fs') !! "b" = None ∧
  is_Some (children (heap fs' !!! current fs') !! "b").
Proof.
  split; [apply start_node_parsed |].
  vm_compute. repeat split; try done. by eexists.
Qed.

(** ** Files and the create walk *)

(** C2 (the code departs from the claim).  After [mkdir a], [touch a/f] and
    [mkdir a/f/b] the node of the file [f] has the child [b]: the create
    walk descends into an existing child without looking at its kind. *)
Theorem C2_file_gets_a_child :
  let fs := state_of (run [Mkdir "a"; Touch "a/f"; Mkdir "a/f/b"] FileSystem_init) in
  ∃ f b, children (heap fs !!! root fs) !! "a" = Some 1 ∧
         children (heap fs !!! 1) !! "f" = Some f ∧
         is_file (heap fs !!! f) = true ∧
         children (heap fs !!! f) !! "b" = Some b ∧
         children (heap fs !!! f) ≠ ∅.
Proof.
  exists 2, 3. vm_compute. repeat split; try done.
Qed.

(** C3 (the code departs from the claim).  On the fresh tree [touch a/f]
    is refused, because [a] does not exist; it succeeds once [a] has been
    made.  With the file [a/f] in place, [mkdir a/f/b] reports nothing and
    returns a state that differs from the one it started in: the heap has
    one more node, stored under [f]. *)
Theorem C3_mkdir_through_file_changes_tree :
  let fs := state_of (run [Mkdir "a"; Touch "a/f"] FileSystem_init) in
  (touch FileSystem_init "a/f").2 = ["Invalid path: a/f"] ∧
  (touch (state_of (mkdir FileSystem_init "a")) "a/f").2 = ["File 'f' created"] ∧
  ∃ fs', mkdir fs "a/f/b" = Ok (fs', []) ∧ fs' ≠ fs ∧
         length (heap fs') = S (length (heap fs)) ∧
         is_file (heap fs !!! 2) = true ∧
         children (heap fs !!! 2) = ∅ ∧
         children (heap fs' !!! 2) !! "b" = Some 3.
Proof.
  split; [by vm_compute |]. split; [by vm_compute |].
  eexists. split; [by vm_compute |].
  vm_compute. repeat split; try done.
Qed.

(** ** The guard against walking through a file *)

(** C4 (the code departs from the claim).  The guard of [_traverse]
    compares the component with the value of the last component, not the
    positions: in ['f/../f'] the file [f] is entered at the first position,
    which is not the last one, and the walk goes on and returns [f]. *)
Theorem C4_traverse_passes_through_file :
  let fs := state_of (run [Touch "f"; Write "f" "x"] FileSystem_init) in
  _parse_path "f/../f" = ["f"; ".."; "f"] ∧
  children (heap fs !!! current fs) !! "f" = Some 1 ∧
  is_file (heap fs !!! 1) = true ∧
  _traverse fs ["f"; ".."; "f"] = Some 1 ∧
  (cat fs "f/../f").2 = ["x"].
Proof.
  vm_compute. repeat split; try done.
Qed.

(** ** Repeating [mkdir] *)

Lemma create_directory_idem fs comps fs1 :
  wf fs → _create_directory fs comps = Ok fs1 → _create_directory fs1 comps = Ok fs1.
Proof.
  intros W. unfold _create_directory. destruct comps as [|c rest]; [done |].
  intros [= <-]. cbn [heap root current]. f_equal. f_equal.
  destruct (start_node_wf fs (c :: rest) W) as [Hs Hn].
  unfold start_node in Hs, Hn.
  exact (create_loop_idem (c :: rest) (heap fs) _ (wf_heap _ W) Hs Hn).
Qed.

(** C5.  In every reachable state, [mkdir p] returns without an error and
    prints nothing, and a second [mkdir p] returns the very state the first
    one produced, again without an error and without output. *)
Theorem C5_mkdir_idempotent fs path :
  reachable fs →
  ∃ fs1, mkdir fs path = Ok (fs1, []) ∧ mkdir fs1 path = Ok (fs1, []).
Proof.
  intros W%reachable_wf. unfold mkdir.
  destruct (_traverse fs (_parse_path path)) as [n|] eqn:Ht.
  - exists fs. by rewrite Ht.
  - destruct (_parse_path path) as [|c rest] eqn:Hp; [done |].
    destruct (_create_directory fs (c :: rest)) as [fs1|e] eqn:Hc; [| done].
    exists fs1. split; [done |].
    destruct (_traverse fs1 (c :: rest)); [done |].
    by rewrite (create_directory_idem _ _ _ W Hc).
Qed.

Lemma C5_mkdir_idempotent_witness :
  let fs := state_of (run [Mkdir "a"; Touch "a/f"; Cd "a"] FileSystem_init) in
  reachable fs ∧
  ∃ fs1, mkdir fs "f/b/../c" = Ok (fs1, []) ∧ mkdir fs1 "f/b/../c" = Ok (fs1, []).
Proof.
  split; [apply reachable_state_of |].
  apply C5_mkdir_idempotent. apply reachable_state_of.
Defined.

(** ** The cursor *)

Lemma linked_bound h r i : heap_ok h → r < length h → linked h r i → i < length h.
Proof.
  intros Hok Hr. induction 1 as [|p k c _ IH Hc]; [done |].
  by destruct (ok_child _ Hok _ _ _ IH Hc).
Qed.

Lemma linked_le h h' r i :
  heap_ok h → r < length h → heap_le h h' → linked h r i → linked h' r i.
Proof.
  intros Hok Hr Hle. induction 1 as [|p k c Hl IH Hc]; [constructor |].
  eapply linked_child; [done |].
  eapply lookup_weaken; [done |].
  apply (le_children _ _ Hle). by eapply linked_bound.
Qed.

Lemma add_child_linked h r p k isf :
  heap_ok h → r < length h → p < length h → children (h !!! p) !! k = None →
  all_linked h r → all_linked (add_child h p k isf) r.
Proof.
  intros Hok Hr Hp Hk Hall i. rewrite length_add_child. intros Hi.
  pose proof (add_child_le h p k isf Hp Hk) as Hle.
  destruct (decide (i = length h)) as [->|Hne].
  - apply (linked_child _ _ p k).
    + eapply linked_le; [done | done | done |]. by apply Hall.
    + rewrite lookup_add_child by done. rewrite decide_True by done.
      simpl. by rewrite lookup_insert_eq.
  - eapply linked_le; [done | done | done |]. apply Hall. lia.
Qed.

Lemma create_loop_linked r comps : ∀ h cur,
  heap_ok h → r < length h → cur < length h → nav h cur →
  all_linked h r → all_linked (_create_loop h cur comps) r.
Proof.
  induction comps as [|comp rest IH]; intros h cur Hok Hr Hcur Hnav Hall; simpl.
  - done.
  - destruct (decide (comp = "..")) as [->|Hdd].
    { destruct (parent (h !!! cur)) as [p|] eqn:Hp; [| by apply IH].
      destruct (ok_parent _ Hok _ _ Hcur Hp) as [Hlt Hn].
      apply IH; [done | done | lia | done | done]. }
    destruct (decide (comp = ".")) as [->|Hd]; [by apply IH |].
    destruct (children (h !!! cur) !! comp) as [c|] eqn:Hc.
    + destruct (ok_child _ Hok _ _ _ Hcur Hc) as [Hlt Hnm].
      apply IH; [done | done | done | | done]. unfold nav. by rewrite Hnm.
    + apply IH.
      * by apply add_child_ok.
      * rewrite length_add_child. lia.
      * rewrite length_add_child. lia.
      * unfold nav. rewrite lookup_add_child by done.
        rewrite decide_False by lia. by rewrite decide_True.
      * by apply add_child_linked.
Qed.

Lemma write_content_linked h r n text :
  all_linked h r → all_linked (write_content h n text) r.
Proof.
  intros Hall i. rewrite length_write_content. intros Hi.
  specialize (Hall i Hi). clear Hi.
  induction Hall as [|p k c _ IH Hc]; [constructor |].
  eapply linked_child; [done |]. by rewrite write_content_children.
Qed.

Lemma exec_root c fs fs' out : exec c fs = Ok (fs', out) → root fs' = root fs.
Proof.
  destruct c; simpl.
  - unfold mkdir. destruct (_traverse _ _); [by intros [= <- _] |].
    unfold _create_directory. destruct (_parse_path path); [done |].
    simpl. by intros [= <- _].
  - intros [= H]. change fs' with (fs', out).1. rewrite <- H. unfold touch.
    destruct (_parse_path path); [done |]. destruct (_traverse _ _); [| done].
    destruct (negb _); [| done]. by destruct (_ !! _).
  - intros [= H]. change fs' with (fs', out).1. by rewrite <- H, ls_state.
  - intros [= H]. change fs' with (fs', out).1. rewrite <- H. unfold cd.
    case_decide; [done |]. destruct (_traverse _ _); [| done].
    by destruct (negb _).
  - by intros ->%pwd_state.
  - intros [= H]. change fs' with (fs', out).1. by rewrite <- H, cat_state.
  - intros [= H]. change fs' with (fs', out).1. rewrite <- H. unfold write.
    destruct (_traverse _ _); [| done]. by destruct (is_file _).
  - intros [= H]. change fs' with (fs', out).1. rewrite <- H. unfold rm.
    destruct (_parse_path path); [done |]. destruct (_traverse _ _); [| done].
    by destruct (_ !! _).
Qed.

Lemma exec_linked c fs fs' out :
  wf fs → is_rm c = false → exec c fs = Ok (fs', out) →
  all_linked (heap fs) (root fs) → all_linked (heap fs') (root fs).
Proof.
  intros W Hc He Hall. destruct c; simpl in He; try done.
  - revert He. unfold mkdir.
    destruct (_traverse _ _); [by intros [= <- _] |].
    unfold _create_directory.
    destruct (_parse_path path) as [|c rest] eqn:Hp; [done |].
    cbn [res_bind]. intros [= <- _]. cbn [heap].
    destruct (start_node_wf fs (c :: rest) W) as [Hs Hn].
    unfold start_node in Hs, Hn.
    exact (create_loop_linked _ (c :: rest) _ _ (wf_heap _ W) (wf_root _ W) Hs Hn Hall).
  - injection He as He. change fs' with (fs', out).1. rewrite <- He.
    unfold touch. destruct (_parse_path path) as [|c rest]; [done |].
    destruct (_traverse fs _) as [d|] eqn:Ht; [| done].
    destruct (traverse_wf _ _ _ W Ht) as [Hd Hn].
    destruct (negb _); [| done].
    destruct (children (heap fs !!! d) !! _) eqn:Hk; [done |]. cbn [fst heap with_heap].
    by apply add_child_linked; [apply (wf_heap _ W) | apply (wf_root _ W) | |  |].
  - injection He as He. change fs' with (fs', out).1. by rewrite <- He, ls_state.
  - injection He as He. change fs' with (fs', out).1. rewrite <- He.
    unfold cd. case_decide; [done |]. destruct (_traverse _ _); [| done].
    by destruct (negb _).
  - by apply pwd_state in He as ->.
  - injection He as He. change fs' with (fs', out).1. by rewrite <- He, cat_state.
  - injection He as He. change fs' with (fs', out).1. rewrite <- He.
    unfold write. destruct (_traverse _ _); [| done].
    destruct (is_file _); [| done]. cbn [fst heap with_heap].
    by apply write_content_linked.
Qed.

Lemma run_linked cmds : ∀ fs fs' out,
  wf fs → forallb (λ c, negb (is_rm c)) cmds = true →
  run cmds fs = Ok (fs', out) →
  all_linked (heap fs) (root fs) → all_linked (heap fs') (root fs').
Proof.
  induction cmds as [|c rest IH]; intros fs fs' out W Hno; simpl.
  - by intros [= <- _].
  - simpl in Hno. apply andb_true_iff in Hno as [Hc Hrest].
    apply negb_true_iff in Hc.
    destruct (exec c fs) as [[fs1 o1]|] eqn:He; [| done]. cbn [res_bind fst snd].
    destruct (run rest fs1) as [[fs2 o2]|] eqn:Hr; [| done]. cbn [res_bind fst snd].
    intros [= <- _] Hall.
    eapply IH; [by eapply exec_wf | done | done |].
    rewrite (exec_root _ _ _ _ He). by eapply exec_linked.
Qed.

Lemma run_wf cmds fs fs' out : wf fs → run cmds fs = Ok (fs', out) → wf fs'.
Proof.
  revert fs fs' out. induction cmds as [|c rest IH]; intros fs fs' out W; simpl.
  - by intros [= <- _].
  - destruct (exec c fs) as [[fs1 o1]|] eqn:He; [| done]. cbn [res_bind fst snd].
    destruct (run rest fs1) as [[fs2 o2]|] eqn:Hr; [| done]. cbn [res_bind fst snd].
    intros [= <- _]. eapply IH; [| done]. by eapply exec_wf.
Qed.

Lemma all_linked_init : all_linked (heap FileSystem_init) (root FileSystem_init).
Proof. intros i Hi. simpl in *. assert (i = 0) as -> by lia. constructor. Qed.

Lemma run_without_rm_cursor_linked cmds fs out :
  run cmds FileSystem_init = Ok (fs, out) →
  forallb (λ c, negb (is_rm c)) cmds = true →
  linked (heap fs) (root fs) (current fs).
Proof.
  intros Hr Hno. pose proof (run_wf _ _ _ _ wf_init Hr) as W.
  apply (run_linked _ _ _ _ wf_init Hno Hr all_linked_init), (wf_cur _ W).
Qed.

(** C6, the claim as stated fails: after [mkdir a], [cd a] and [rm ../a] the
    cursor still designates the node of [a], which no chain of [children]
    links connects to the root any more. *)
Lemma C6_counterexample :
  let fs := state_of (run [Mkdir "a"; Cd "a"; Rm "../a"] FileSystem_init) in
  reachable fs ∧ ¬ linked (heap fs) (root fs) (current fs).
Proof.
  intros fs. split; [apply reachable_state_of |].
  assert (∀ n, linked (heap fs) (root fs) n → n = 0) as Hroot.
  { induction 1 as [|p k c _ IH Hc]; [done |]. subst p.
    vm_compute in Hc. done. }
  intros Hl. apply Hroot in Hl. vm_compute in Hl. done.
Qed.

(** ** Listing a directory *)

(** C7 (amended).  For a directory, [ls] prints one text: the entries
    (each child's name, with ['/'] appended when the child is a directory)
    put in lexicographic order as marked strings and joined by newlines, or
    the text ["Empty directory"] when that join is empty, which is the case
    for a directory without children. *)
Theorem C7_ls_sorts_marked_entries fs path t :
  ls_target fs (_parse_path path) = Some t →
  is_file (heap fs !!! t) = false →
  ∃ L, L ≡ₚ ls_contents (heap fs) t ∧
       StronglySorted String.le L ∧
       (ls fs path).2 =
         [if decide (join nl L = "") then "Empty directory" else join nl L] ∧
       (children (heap fs !!! t) = ∅ → (ls fs path).2 = ["Empty directory"]).
Proof.
  intros Ht Hf. exists (sorted (ls_contents (heap fs) t)).
  unfold ls. rewrite Ht, Hf. cbn [snd]. unfold sorted. split; [| split; [| split]].
  - apply merge_sort_Permutation.
  - apply (StronglySorted_merge_sort String.le).
  - done.
  - intros He. unfold ls_text, ls_contents, sorted. rewrite He, map_to_list_empty.
    done.
Qed.

Lemma C7_ls_witness :
  let fs := state_of (run [Mkdir "z"; Mkdir "a"; Touch "m"] FileSystem_init) in
  ls_target fs (_parse_path "") = Some 0 ∧
  is_file (heap fs !!! 0) = false ∧
  (ls fs "").2 = ["a/" +:+ nl +:+ "m" +:+ nl +:+ "z/"] ∧
  ∃ L, L ≡ₚ ls_contents (heap fs) 0 ∧
       StronglySorted String.le L ∧
       (ls fs "").2 =
         [if decide (join nl L = "") then "Empty directory" else join nl L] ∧
       (children (heap fs !!! 0) = ∅ → (ls fs "").2 = ["Empty directory"]).
Proof.
  intros fs. split; [reflexivity |]. split; [reflexivity |].
  split; [vm_compute; reflexivity |].
  apply (C7_ls_sorts_marked_entries fs "" 0); reflexivity.
Defined.

(** C7, the claim as stated fails.  With the directory [a] and the file
    [a.txt] in one directory, [ls] prints [a.txt] before [a/], while the
    names in lexicographic order, marked afterwards, give [a/] before
    [a.txt].  And a directory that holds the single file
    [Empty directory] prints the same text as a directory without
    children. *)
Lemma C7_counterexample :
  let fs := state_of (run [Mkdir "a"; Touch "a.txt"] FileSystem_init) in
  let fs2 := state_of (run [Touch "Empty directory"] FileSystem_init) in
  (ls fs "").2 = ["a.txt" +:+ nl +:+ "a/"] ∧
  ls_sorted_by_name (heap fs) (current fs) = ["a/"; "a.txt"] ∧
  (ls fs "").2 ≠ [join nl (ls_sorted_by_name (heap fs) (current fs))] ∧
  children (heap fs2 !!! current fs2) ≠ ∅ ∧
  (ls fs2 "").2 = (ls FileSystem_init "").2.
Proof.
  vm_compute. repeat split; done.
Qed.

(** ** No operation fails *)

Lemma pwd_loop_total h : heap_ok h → ∀ fuel node path,
  node < length h → node ≤ fuel → ∃ r, pwd_loop fuel h node path = Ok r.
Proof.
  intros Hok. induction fuel as [|fuel IH]; intros node path Hn Hf; simpl.
  - destruct (parent (h !!! node)) as [p|] eqn:Hp; [| by eexists].
    destruct (ok_parent _ Hok _ _ Hn Hp). lia.
  - destruct (parent (h !!! node)) as [p|] eqn:Hp; [| by eexists].
    destruct (ok_parent _ Hok _ _ Hn Hp). apply IH; lia.
Qed.

Lemma ok_pair (r : FileSystem * list string) : ∃ fs' out, Ok r = Ok (fs', out).
Proof. destruct r as [fs' out]. by exists fs', out. Qed.

Lemma traverse_None_nonempty fs comps : _traverse fs comps = None → comps ≠ [].
Proof. by destruct comps. Qed.

(** C8.  In every reachable state each of the eight operations returns a
    state and its printed lines: no [IndexError] is raised and the loop of
    [pwd] ends.  The create walk runs only when [_traverse] has answered
    [None], which it never does for an empty component list. *)
Theorem C8_operations_never_fault fs c :
  reachable fs →
  (∃ fs' out, exec c fs = Ok (fs', out)) ∧
  (∀ comps, _traverse fs comps = None →
            comps ≠ [] ∧ ∃ fs', _create_directory fs comps = Ok fs').
Proof.
  intros W%reachable_wf.
  assert (∀ comps, _traverse fs comps = None →
            comps ≠ [] ∧ ∃ fs', _create_directory fs comps = Ok fs') as Hcreate.
  { intros comps Ht. split; [by eapply traverse_None_nonempty |].
    unfold _create_directory. destruct comps; [done | by eexists]. }
  split; [| done].
  destruct c; simpl; try apply ok_pair.
  - unfold mkdir. destruct (_traverse fs (_parse_path path)) eqn:Ht; [by eexists _, _ |].
    destruct (Hcreate _ Ht) as [_ [fs' ->]]. by eexists _, _.
  - unfold pwd.
    destruct (pwd_loop_total _ (wf_heap _ W) (length (heap fs)) (current fs) [])
      as [r ->]; [apply (wf_cur _ W) | | by eexists _, _].
    pose proof (wf_cur _ W). lia.
Qed.

Lemma C8_operations_witness :
  let fs := state_of (run [Mkdir "a/b"; Cd "a/b"; Rm "../../a"] FileSystem_init) in
  reachable fs ∧
  (∃ fs' out, exec Pwd fs = Ok (fs', out)) ∧
  (∀ comps, _traverse fs comps = None →
            comps ≠ [] ∧ ∃ fs', _create_directory fs comps = Ok fs').
Proof.
  intros fs. split; [apply reachable_state_of |].
  apply (C8_operations_never_fault fs Pwd). apply reachable_state_of.
Defined.

(** ** Writing and reading a file *)

Lemma traverse_single fs nm c :
  nm ≠ ".." → nm ≠ "." → nm ≠ "" →
  children (heap fs !!! current fs) !! nm = Some c →
  _traverse fs [nm] = Some c.
Proof.
  intros Hdd Hd He Hc. unfold _traverse, start_node. simpl.
  rewrite (decide_False (P := nm = "")) by done.
  rewrite (decide_False (P := nm = "..")) by done.
  rewrite (decide_False (P := nm = ".")) by done.
  rewrite Hc. rewrite (bool_decide_eq_false_2 (nm ≠ nm)) by (intros H; by apply H).
  by rewrite andb_false_r.
Qed.

Lemma write_cat_single fs nm c text :
  wf fs → _parse_path nm = [nm] → nm ≠ ".." → nm ≠ "." →
  children (heap fs !!! current fs) !! nm = Some c →
  is_file (heap fs !!! c) = true →
  (write fs nm text).2 = ["Written to " +:+ nm] ∧
  (cat (write fs nm text).1 nm).2 = [text].
Proof.
  intros W Hp Hdd Hd Hc Hf.
  assert (nm ≠ "") as He.
  { pose proof (parse_path_nonempty nm) as H. rewrite Hp in H.
    by apply Forall_cons in H as [? _]. }
  destruct (ok_child _ (wf_heap _ W) _ _ _ (wf_cur _ W) Hc) as [Hlt _].
  unfold write. rewrite Hp, (traverse_single fs nm c), Hf by done.
  cbn [fst snd]. split; [done |].
  unfold cat. rewrite Hp.
  rewrite (traverse_single _ nm c); try done.
  - cbn [heap with_heap].
    rewrite (ext_is_file _ _ (write_content_ext (heap fs) c text)), Hf by done.
    cbn [snd]. rewrite lookup_write_content. by rewrite decide_True.
  - cbn [heap with_heap current]. by rewrite write_content_children.
Qed.

Lemma touch_unfold fs path :
  _parse_path path ≠ [] →
  touch fs path =
    let components := _parse_path path in
    match _traverse fs (List.removelast components) with
    | Some dir_node =>
        if negb (is_file (heap fs !!! dir_node)) then
          match children (heap fs !!! dir_node) !! List.last components "" with
          | None =>
              (with_heap fs (add_child (heap fs) dir_node (List.last components "") true),
               ["File '" +:+ List.last components "" +:+ "' created"])
          | Some _ => (fs, ["File '" +:+ List.last components "" +:+ "' already exists"])
          end
        else (fs, ["Invalid path: " +:+ join "/" components])
    | None => (fs, ["Invalid path: " +:+ join "/" components])
    end.
Proof. unfold touch. by destruct (_parse_path path). Qed.

(** C9 (amended).  In a reachable state whose cursor has no directory
    named [f.txt], the sequence [touch f.txt], write of a text to [f.txt],
    [cat f.txt] ends with [cat] printing exactly the written text. *)
Theorem C9_write_read_round_trip fs text :
  reachable fs →
  (∀ c, children (heap fs !!! current fs) !! "f.txt" = Some c →
        is_file (heap fs !!! c) = true) →
  let fs1 := (touch fs "f.txt").1 in
  let fs2 := (write fs1 "f.txt" text).1 in
  (write fs1 "f.txt" text).2 = ["Written to f.txt"] ∧
  (cat fs2 "f.txt").2 = [text].
Proof.
  intros R Hfile fs1 fs2. pose proof (reachable_wf _ R) as W.
  pose proof (touch_wf fs "f.txt" W) as W1. fold fs1 in W1.
  assert (∃ c, children (heap fs1 !!! current fs1) !! "f.txt" = Some c ∧
               is_file (heap fs1 !!! c) = true) as (c & Hc & Hf).
  { subst fs1. rewrite touch_unfold by done.
    change (_parse_path "f.txt") with ["f.txt"]. cbn [List.removelast List.last].
    rewrite traverse_nil, (wf_cur_dir _ W). cbn [negb].
    destruct (children (heap fs !!! current fs) !! "f.txt") as [c|] eqn:Hc.
    - exists c. cbn [fst]. split; [done | by apply Hfile].
    - exists (length (heap fs)). cbn [fst heap with_heap current].
      pose proof (wf_cur _ W) as Hcur.
      rewrite !lookup_add_child by done.
      rewrite decide_True by done. rewrite decide_False by lia.
      rewrite decide_True by done. simpl. by rewrite lookup_insert_eq. }
  subst fs2. by apply (write_cat_single fs1 "f.txt" c text).
Qed.

Lemma C9_round_trip_witness :
  let fs := state_of (run [Mkdir "d"; Cd "d"] FileSystem_init) in
  reachable fs ∧
  (∀ c, children (heap fs !!! current fs) !! "f.txt" = Some c →
        is_file (heap fs !!! c) = true) ∧
  (write (touch fs "f.txt").1 "f.txt" "hello").2 = ["Written to f.txt"] ∧
  (cat (write (touch fs "f.txt").1 "f.txt" "hello").1 "f.txt").2 = ["hello"].
Proof.
  intros fs.
  assert (reachable fs) as R by apply reachable_state_of.
  assert (∀ c, children (heap fs !!! current fs) !! "f.txt" = Some c →
               is_file (heap fs !!! c) = true) as H.
  { intros c Hc. vm_compute in Hc. discriminate Hc. }
  split; [exact R |]. split; [exact H |].
  exact (C9_write_read_round_trip fs "hello" R H).
Defined.

(** C9, the claim as stated fails: when the cursor already holds a
    directory named [f.txt], [touch] reports that the name exists, the
    write finds no file, and [cat] prints a failure instead of the text. *)
Lemma C9_counterexample :
  let fs := state_of (run [Mkdir "f.txt"] FileSystem_init) in
  reachable fs ∧
  is_file (heap fs !!! current fs) = false ∧
  output_of (run [Touch "f.txt"; Write "f.txt" "hello"; Cat "f.txt"] fs)
    = ["File 'f.txt' already exists"; "File not found: f.txt";
       "File not found: f.txt"] ∧
  (cat (write (touch fs "f.txt").1 "f.txt" "hello").1 "f.txt").2 ≠ ["hello"].
Proof.
  intros fs. split; [apply reachable_state_of |].
  vm_compute. repeat split; done.
Qed.

(** ** Files named ['.'] and ['..'] *)

Lemma exec_ext c fs fs' out :
  wf fs → exec c fs = Ok (fs', out) → heap_ext (heap fs) (heap fs').
Proof.
  intros W He. destruct c; simpl in He.
  - revert He. unfold mkdir.
    destruct (_traverse _ _); [intros [= <- _]; apply heap_ext_refl |].
    unfold _create_directory.
    destruct (_parse_path path) as [|c rest] eqn:Hp; [done |].
    cbn [res_bind]. intros [= <- _]. cbn [heap].
    destruct (start_node_wf fs (c :: rest) W) as [Hs Hn].
    unfold start_node in Hs, Hn.
    exact (le_ext _ _ (proj2 (create_loop_ok (c :: rest) _ _ (wf_heap _ W) Hs Hn))).
  - injection He as He. change fs' with (fs', out).1. rewrite <- He.
    unfold touch. destruct (_parse_path path) as [|c rest]; [apply heap_ext_refl |].
    destruct (_traverse fs _) as [d|] eqn:Ht; [| apply heap_ext_refl].
    destruct (traverse_wf _ _ _ W Ht) as [Hd Hn].
    destruct (negb _); [| apply heap_ext_refl].
    destruct (children (heap fs !!! d) !! _) eqn:Hk; [apply heap_ext_refl |].
    cbn [fst heap with_heap]. by apply le_ext, add_child_le.
  - injection He as He. change fs' with (fs', out).1. rewrite <- He, ls_state.
    apply heap_ext_refl.
  - injection He as He. change fs' with (fs', out).1. rewrite <- He.
    unfold cd. case_decide; [apply heap_ext_refl |].
    destruct (_traverse _ _); [| apply heap_ext_refl].
    destruct (negb _); apply heap_ext_refl.
  - apply pwd_state in He as ->. apply heap_ext_refl.
  - injection He as He. change fs' with (fs', out).1. rewrite <- He, cat_state.
    apply heap_ext_refl.
  - injection He as He. change fs' with (fs', out).1. rewrite <- He.
    unfold write. destruct (_traverse _ _); [| apply heap_ext_refl].
    destruct (is_file _); [| apply heap_ext_refl]. apply write_content_ext.
  - injection He as He. change fs' with (fs', out).1. rewrite <- He.
    unfold rm. destruct (_parse_path path); [apply heap_ext_refl |].
    destruct (_traverse _ _); [| apply heap_ext_refl].
    destruct (_ !! _); [| apply heap_ext_refl]. apply del_child_ext.
Qed.

Lemma run_ext cmds : ∀ fs fs' out,
  wf fs → run cmds fs = Ok (fs', out) → heap_ext (heap fs) (heap fs').
Proof.
  induction cmds as [|c rest IH]; intros fs fs' out W; simpl.
  - intros [= <- _]. apply heap_ext_refl.
  - destruct (exec c fs) as [[fs1 o1]|] eqn:He; [| done]. cbn [res_bind fst snd].
    destruct (run rest fs1) as [[fs2 o2]|] eqn:Hr; [| done]. cbn [res_bind fst snd].
    intros [= <- _]. eapply heap_ext_trans; [by eapply exec_ext |].
    eapply IH; [| done]. by eapply exec_wf.
Qed.

(** C10.  When the last component of the path is ['..'] or ['.'], the
    components before it resolve to a directory and that directory has no
    child of that name, [touch] creates a file node with that literal name
    there.  In every reachable state [_traverse] only returns nodes named
    otherwise, so no later resolution, after any further operations, returns
    the node just created. *)
Theorem C10_touch_creates_dot_named_file fs path dirs fn d :
  reachable fs →
  _parse_path path = dirs ++ [fn] →
  fn = ".." ∨ fn = "." →
  _traverse fs dirs = Some d →
  is_file (heap fs !!! d) = false →
  children (heap fs !!! d) !! fn = None →
  let fs' := (touch fs path).1 in
  let new_node := length (heap fs) in
  (touch fs path).2 = ["File '" +:+ fn +:+ "' created"] ∧
  children (heap fs' !!! d) !! fn = Some new_node ∧
  name (heap fs' !!! new_node) = fn ∧
  is_file (heap fs' !!! new_node) = true ∧
  (∀ fs2 comps n, reachable fs2 → _traverse fs2 comps = Some n →
     name (heap fs2 !!! n) ≠ "." ∧ name (heap fs2 !!! n) ≠ "..") ∧
  (∀ cmds fs2 out comps, run cmds fs' = Ok (fs2, out) →
     _traverse fs2 comps ≠ Some new_node).
Proof.
  intros R Hp Hfn Ht Hdir Hk fs' new_node.
  pose proof (reachable_wf _ R) as W.
  destruct (traverse_wf _ _ _ W Ht) as [Hd Hn].
  assert (touch fs path =
          (with_heap fs (add_child (heap fs) d fn true),
           ["File '" +:+ fn +:+ "' created"])) as Htouch.
  { rewrite touch_unfold by (rewrite Hp; by destruct dirs).
    cbn zeta. rewrite Hp, removelast_last, last_last, Ht, Hdir. cbn [negb].
    by rewrite Hk. }
  assert (name (heap fs' !!! new_node) = fn) as Hname.
  { subst fs' new_node. rewrite Htouch. cbn [fst heap with_heap].
    rewrite lookup_add_child by done. rewrite decide_False by lia.
    by rewrite decide_True. }
  assert (∀ fs2 comps n, reachable fs2 → _traverse fs2 comps = Some n →
     name (heap fs2 !!! n) ≠ "." ∧ name (heap fs2 !!! n) ≠ "..") as Hnav.
  { intros fs2 comps n R2 Ht2.
    by destruct (traverse_wf _ _ _ (reachable_wf _ R2) Ht2) as [_ ?]. }
  assert (wf fs') as W' by (by apply touch_wf).
  assert (reachable fs') as R'.
  { eapply (reachable_step fs (Touch path) fs' (touch fs path).2); [done |].
    subst fs'. simpl. by destruct (touch fs path). }
  split; [by rewrite Htouch |].
  split; [| split; [done | split; [| split; [done |]]]].
  - subst fs' new_node. rewrite Htouch. cbn [fst heap with_heap].
    rewrite lookup_add_child by done. rewrite decide_True by done.
    simpl. by rewrite lookup_insert_eq.
  - subst fs' new_node. rewrite Htouch. cbn [fst heap with_heap].
    rewrite lookup_add_child by done. rewrite decide_False by lia.
    by rewrite decide_True.
  - intros cmds fs2 out comps Hr Ht2.
    pose proof (run_ext _ _ _ _ W' Hr) as E.
    assert (new_node < length (heap fs')) as Hlt.
    { subst fs' new_node. rewrite Htouch. cbn [fst heap with_heap].
      rewrite length_add_child. lia. }
    destruct (Hnav fs2 comps new_node) as [H1 H2];
      [by eapply reachable_run | done |].
    rewrite (ext_name _ _ E), Hname in H1, H2 by done.
    by destruct Hfn.
Qed.

Lemma C10_touch_witness :
  let fs := state_of (run [Mkdir "a"] FileSystem_init) in
  let fs' := (touch fs "a/..").1 in
  reachable fs ∧
  _parse_path "a/.." = ["a"] ++ [".."] ∧
  (".." = ".." ∨ ".." = ".") ∧
  _traverse fs ["a"] = Some 1 ∧
  is_file (heap fs !!! 1) = false ∧
  children (heap fs !!! 1) !! ".." = None ∧
  (touch fs "a/..").2 = ["File '..' created"] ∧
  children (heap fs' !!! 1) !! ".." = Some 2 ∧
  name (heap fs' !!! 2) = ".." ∧
  is_file (heap fs' !!! 2) = true ∧
  (∀ fs2 comps n, reachable fs2 → _traverse fs2 comps = Some n →
     name (heap fs2 !!! n) ≠ "." ∧ name (heap fs2 !!! n) ≠ "..") ∧
  (∀ cmds fs2 out comps, run cmds fs' = Ok (fs2, out) →
     _traverse fs2 comps ≠ Some 2).
Proof.
  intros fs fs'.
  assert (reachable fs) as R by apply reachable_state_of.
  split; [exact R |].
  split; [reflexivity |]. split; [left; reflexivity |].
  split; [reflexivity |]. split; [reflexivity |]. split; [reflexivity |].
  exact (C10_touch_creates_dot_named_file fs "a/.." ["a"] ".." 1 R
           eq_refl (or_introl eq_refl) eq_refl eq_refl eq_refl).
Defined.

(** * Further properties of the engine *)

(** ** Splitting and joining paths *)

Lemma split_nonnil sep s : split sep s ≠ [].
Proof.
  destruct s as [|c s]; simpl; [done |].
  destruct (Ascii.eqb c sep); [done |]. by destruct (split sep s).
Qed.

Lemma split_contains sep s : Forall (λ x, contains sep x = false) (split sep s).
Proof.
  induction s as [|c s IH]; simpl.
  - by repeat constructor.
  - destruct (Ascii.eqb c sep) eqn:Hc; [by constructor |].
    destruct (split sep s) as [|w ws]; [repeat constructor; simpl; by rewrite Hc |].
    apply Forall_cons in IH as [Hw Hws]. constructor; [| done].
    simpl. by rewrite Hc.
Qed.

Lemma split_no_sep sep x : contains sep x = false → split sep x = [x].
Proof.
  induction x as [|c x IH]; simpl; [done |].
  intros [Hc Hx]%orb_false_iff. rewrite Hc. by rewrite IH.
Qed.

Lemma split_app_sep sep x s :
  contains sep x = false →
  split sep (x +:+ String sep s) = x :: split sep s.
Proof.
  induction x as [|c x IH]; simpl.
  - intros _. by rewrite Ascii.eqb_refl.
  - intros [Hc Hx]%orb_false_iff. rewrite Hc. by rewrite IH.
Qed.

Lemma join_cons2 sep x y l :
  join sep (x :: y :: l) = x +:+ sep +:+ join sep (y :: l).
Proof. done. Qed.

Lemma split_join sep l :
  l ≠ [] → Forall (λ x, contains sep x = false) l →
  split sep (join (String sep "") l) = l.
Proof.
  induction l as [|x l IH]; [done |]. intros _ [Hx Hl]%Forall_cons.
  destruct l as [|y l].
  - by apply split_no_sep.
  - rewrite join_cons2.
    change (String sep "" +:+ join (String sep "") (y :: l))
      with (String sep (join (String sep "") (y :: l))).
    rewrite split_app_sep by done. f_equal. by apply IH.
Qed.

Lemma filter_nonempty_id (l : list string) :
  Forall (λ c, c ≠ "") l → filter (λ c, c ≠ "") l = l.
Proof.
  induction 1 as [|x l Hx _ IH]; [done |].
  rewrite filter_cons_True by done. by rewrite IH.
Qed.

Lemma parse_path_components path : Forall component (_parse_path path).
Proof.
  destruct path as [|c rest]; [constructor |]. unfold _parse_path.
  apply Forall_forall. intros x [Hx Hin]%list_elem_of_filter. split; [done |].
  destruct (Ascii.eqb c "/").
  - by eapply (proj1 (Forall_forall _ _) (split_contains "/" rest)).
  - by eapply (proj1 (Forall_forall _ _) (split_contains "/" (String c rest))).
Qed.

Lemma parse_path_join comps :
  Forall component comps → _parse_path (join "/" comps) = comps.
Proof.
  intros Hall. destruct comps as [|x l]; [done |].
  assert (Forall (λ c, c ≠ "") (x :: l)) as Hne
    by (apply (Forall_impl _ _ _ Hall); intros ? Hc; apply Hc).
  assert (Forall (λ c, contains "/" c = false) (x :: l)) as Hns
    by (apply (Forall_impl _ _ _ Hall); intros ? Hc; apply Hc).
  pose proof (split_join "/" (x :: l) ltac:(done) Hns) as Hs.
  apply Forall_cons in Hall as [Hcomp _]. destruct Hcomp as [Hx Hxs].
  destruct x as [|c x]; [done |]. simpl in Hxs.
  apply orb_false_iff in Hxs as [Hc _].
  assert (∃ r, join "/" (String c x :: l) = String c r) as [r Hr]
    by (destruct l; simpl; by eexists).
  rewrite Hr in Hs |- *. unfold _parse_path. rewrite Hc, Hs.
  by apply filter_nonempty_id.
Qed.

(** X1.  Every component that [_parse_path] returns is non-empty and
    contains no ['/']. *)
Theorem X1_parse_path_components path :
  Forall (λ c, c ≠ "" ∧ contains "/" c = false) (_parse_path path).
Proof. apply parse_path_components. Qed.

(** X2.  Joining a list of non-empty, slash-free components with ['/']
    and parsing the result gives the list back. *)
Theorem X2_parse_join_round_trip comps :
  Forall (λ c, c ≠ "" ∧ contains "/" c = false) comps →
  _parse_path (join "/" comps) = comps.
Proof. apply parse_path_join. Qed.

Lemma X2_parse_join_witness :
  Forall (λ c, c ≠ "" ∧ contains "/" c = false) ["a"; ".."; "b c"; "."] ∧
  _parse_path (join "/" ["a"; ".."; "b c"; "."]) = ["a"; ".."; "b c"; "."].
Proof.
  assert (Forall (λ c, c ≠ "" ∧ contains "/" c = false) ["a"; ".."; "b c"; "."]) as H
    by (repeat constructor; discriminate).
  split; [exact H | exact (X2_parse_join_round_trip _ H)].
Defined.

(** X3.  Parsing is a normalisation: the path printed from the parsed
    components (as the failure messages print it) parses to the same
    components, whatever slashes the original contained. *)
Theorem X3_parse_path_normalises path :
  _parse_path (join "/" (_parse_path path)) = _parse_path path.
Proof. apply parse_path_join, parse_path_components. Qed.

(** X4.  A leading ['/'] makes no difference to the parsed components. *)
Theorem X4_parse_path_leading_slash path :
  _parse_path ("/" +:+ path) = _parse_path path.
Proof.
  change ("/" +:+ path) with (String "/" path).
  destruct path as [|c r]; [done |].
  unfold _parse_path. cbn [Ascii.eqb]. simpl Ascii.eqb at 1.
  destruct (Ascii.eqb c "/") eqn:Hc.
  - simpl. rewrite Hc. by rewrite filter_cons_False by (intros H; by apply H).
  - done.
Qed.

(** ** Elementary heap changes behind every operation *)

Lemma heap_steps_trans h1 h2 h3 : heap_steps h1 h2 → heap_steps h2 h3 → heap_steps h1 h3.
Proof.
  induction 1 as [| h p k isf h' ? ? ? ? _ IH | h p k h' ? _ IH | h n t h' ? _ IH];
    intros H23; [done | | |].
  - eapply steps_add; [done | done | done | done |]. by apply IH.
  - eapply steps_del; [done |]. by apply IH.
  - eapply steps_write; [done |]. by apply IH.
Qed.

Lemma create_loop_steps comps : ∀ h cur,
  heap_ok h → cur < length h → nav h cur →
  heap_steps h (_create_loop h cur comps).
Proof.
  induction comps as [|comp rest IH]; intros h cur Hok Hcur Hnav; simpl.
  - constructor.
  - destruct (decide (comp = "..")) as [->|Hdd].
    { destruct (parent (h !!! cur)) as [p|] eqn:Hp; [| by apply IH].
      destruct (ok_parent _ Hok _ _ Hcur Hp) as [Hlt Hn].
      apply IH; [done | lia | done]. }
    destruct (decide (comp = ".")) as [->|Hd]; [by apply IH |].
    destruct (children (h !!! cur) !! comp) as [c|] eqn:Hc.
    + destruct (ok_child _ Hok _ _ _ Hcur Hc) as [Hlt Hnm].
      apply IH; [done | done |]. unfold nav. by rewrite Hnm.
    + eapply steps_add; [done | done | done | done |]. apply IH.
      * by apply add_child_ok.
      * rewrite length_add_child. lia.
      * unfold nav. rewrite lookup_add_child by done.
        rewrite decide_False by lia. by rewrite decide_True.
Qed.

Lemma exec_steps c fs fs' out :
  wf fs → exec c fs = Ok (fs', out) → heap_steps (heap fs) (heap fs').
Proof.
  intros W He. pose proof (wf_heap _ W) as Hok. destruct c; simpl in He.
  - revert He. unfold mkdir.
    destruct (_traverse _ _); [intros [= <- _]; constructor |].
    unfold _create_directory.
    destruct (_parse_path path) as [|c rest] eqn:Hp; [done |].
    cbn [res_bind]. intros [= <- _]. cbn [heap].
    destruct (start_node_wf fs (c :: rest) W) as [Hs Hn].
    unfold start_node in Hs, Hn.
    exact (create_loop_steps (c :: rest) _ _ Hok Hs Hn).
  - injection He as He. change fs' with (fs', out).1. rewrite <- He.
    unfold touch. destruct (_parse_path path) as [|c rest]; [constructor |].
    destruct (_traverse fs _) as [d|] eqn:Ht; [| constructor].
    destruct (traverse_wf _ _ _ W Ht) as [Hd Hn].
    destruct (negb _); [| constructor].
    destruct (children (heap fs !!! d) !! _) eqn:Hk; [constructor |].
    cbn [fst heap with_heap]. eapply steps_add; [done | done | done | done |].
    constructor.
  - injection He as He. change fs' with (fs', out).1. rewrite <- He, ls_state.
    constructor.
  - injection He as He. change fs' with (fs', out).1. rewrite <- He.
    unfold cd. case_decide; [constructor |].
    destruct (_traverse _ _); [| constructor].
    destruct (negb _); constructor.
  - apply pwd_state in He as ->. constructor.
  - injection He as He. change fs' with (fs', out).1. rewrite <- He, cat_state.
    constructor.
  - injection He as He. change fs' with (fs', out).1. rewrite <- He.
    unfold write. destruct (_traverse _ _); [| constructor].
    destruct (is_file _); [| constructor].
    cbn [fst heap with_heap]. eapply steps_write; [done |]. constructor.
  - injection He as He. change fs' with (fs', out).1. rewrite <- He.
    unfold rm. destruct (_parse_path path); [constructor |].
    destruct (_traverse _ _); [| constructor].
    destruct (_ !! _); [| constructor].
    cbn [fst heap with_heap]. eapply steps_del; [done |]. constructor.
Qed.

(** ** Dictionary entries and parent references *)

Lemma add_child_links h p k isf :
  heap_ok h → p < length h → children (h !!! p) !! k = None →
  heap_links h → heap_links (add_child h p k isf).
Proof.
  intros Hok Hp Hk Hl i k' c. rewrite length_add_child. intros Hi.
  rewrite (lookup_add_child _ _ _ _ i) by done.
  destruct (decide (i = p)) as [->|Hip]; simpl.
  - destruct (decide (k' = k)) as [->|Hkk].
    + rewrite lookup_insert_eq. intros [= <-].
      rewrite lookup_add_child by done.
      rewrite decide_False by lia. by rewrite decide_True.
    + rewrite lookup_insert_ne by done. intros Hc.
      destruct (ok_child _ Hok _ _ _ Hp Hc) as [Hlt _].
      rewrite (ext_parent _ _ (le_ext _ _ (add_child_le h p k isf Hp Hk))) by done.
      by eapply Hl.
  - destruct (decide (i = length h)) as [->|Hil]; simpl.
    + by rewrite lookup_empty.
    + intros Hc. assert (i < length h) as Hi' by lia.
      destruct (ok_child _ Hok _ _ _ Hi' Hc) as [Hlt _].
      rewrite (ext_parent _ _ (le_ext _ _ (add_child_le h p k isf Hp Hk))) by done.
      by eapply Hl.
Qed.

Lemma del_child_links h p k : heap_ok h → heap_links h → heap_links (del_child h p k).
Proof.
  intros Hok Hl i k' c. rewrite length_del_child. intros Hi Hc.
  assert (children (h !!! i) !! k' = Some c) as Hc'.
  { rewrite lookup_del_child in Hc. case_decide; subst; [| done]. simpl in Hc.
    by apply lookup_delete_Some in Hc as [_ ?]. }
  destruct (ok_child _ Hok _ _ _ Hi Hc') as [Hlt _].
  rewrite (ext_parent _ _ (del_child_ext h p k)) by done. by eapply Hl.
Qed.

Lemma write_content_links h n text :
  heap_ok h → heap_links h → heap_links (write_content h n text).
Proof.
  intros Hok Hl i k c. rewrite length_write_content, write_content_children.
  intros Hi Hc. destruct (ok_child _ Hok _ _ _ Hi Hc) as [Hlt _].
  rewrite (ext_parent _ _ (write_content_ext h n text)) by done. by eapply Hl.
Qed.

Lemma heap_steps_links h h' : heap_steps h h' → heap_links h → heap_links h'.
Proof.
  induction 1 as [| h p k isf h' ? ? ? ? _ IH | h p k h' ? _ IH | h n t h' ? _ IH];
    intros Hl; [done | | |]; apply IH.
  - by apply add_child_links.
  - by apply del_child_links.
  - by apply write_content_links.
Qed.

Lemma reachable_links fs : reachable fs → heap_links (heap fs).
Proof.
  induction 1 as [|fs c fs' out R IH He].
  - intros i k c Hi. simpl in Hi. assert (i = 0) as -> by lia. simpl.
    by rewrite lookup_empty.
  - eapply heap_steps_links; [| done]. eapply exec_steps; [| done].
    by apply reachable_wf.
Qed.

Lemma reachable_root_parent fs : reachable fs → parent (heap fs !!! root fs) = None.
Proof.
  induction 1 as [|fs c fs' out R IH He]; [done |].
  pose proof (reachable_wf _ R) as W.
  rewrite (exec_root _ _ _ _ He).
  rewrite (ext_parent _ _ (exec_ext _ _ _ _ W He)); [done | apply (wf_root _ W)].
Qed.

(** X5.  In every reachable state a dictionary entry [k ↦ c] of a node [i]
    leads to a node of the heap that was constructed after [i], carries the
    name [k] and has [i] as its parent. *)
Theorem X5_child_entries_agree_with_nodes fs i k c :
  reachable fs →
  children (heap fs !!! i) !! k = Some c →
  i < c ∧ c < length (heap fs) ∧
  name (heap fs !!! c) = k ∧ parent (heap fs !!! c) = Some i.
Proof.
  intros R Hc. pose proof (reachable_wf _ R) as W.
  assert (i < length (heap fs)) as Hi.
  { destruct (decide (i < length (heap fs))); [done |].
    rewrite lookup_out_of_range in Hc by lia. simpl in Hc.
    by rewrite lookup_empty in Hc. }
  destruct (ok_child _ (wf_heap _ W) _ _ _ Hi Hc) as [Hlt Hnm].
  pose proof (reachable_links _ R _ _ _ Hi Hc) as Hp.
  destruct (ok_parent _ (wf_heap _ W) _ _ Hlt Hp) as [Hic _].
  done.
Qed.

Lemma X5_child_entries_witness :
  let fs := state_of (run [Mkdir "a/b"; Touch "a/f"; Rm "a/b"] FileSystem_init) in
  reachable fs ∧
  children (heap fs !!! 1) !! "f" = Some 3 ∧
  1 < 3 ∧ 3 < length (heap fs) ∧
  name (heap fs !!! 3) = "f" ∧ parent (heap fs !!! 3) = Some 1.
Proof.
  intros fs. assert (reachable fs) as R by apply reachable_state_of.
  assert (children (heap fs !!! 1) !! "f" = Some 3) as H by reflexivity.
  split; [exact R |]. split; [exact H |].
  exact (X5_child_entries_agree_with_nodes fs 1 "f" 3 R H).
Defined.

(** ** The working directory *)

Lemma ancestry_length h n l : heap_ok h → n < length h → ancestry h n l → length l ≤ n.
Proof.
  intros Hok Hn Ha. induction Ha as [|n p l Hp _ IH]; simpl; [lia |].
  destruct (ok_parent _ Hok _ _ Hn Hp) as [Hlt _].
  assert (length l ≤ p) by (apply IH; lia). lia.
Qed.


Lemma ancestry_pwd_loop h n l : ancestry h n l →
  ∀ fuel path, length l ≤ fuel → pwd_loop fuel h n path = Ok (path ++ l).
Proof.
  induction 1 as [n Hp | n p l Hp _ IH]; intros fuel path Hf.
  - destruct fuel; simpl; rewrite Hp; by rewrite app_nil_r.
  - destruct fuel as [|fuel]; simpl in *; [lia |]. rewrite Hp.
    rewrite IH by lia. by rewrite <- app_assoc.
Qed.

Lemma pwd_ancestry fs l :
  wf fs → ancestry (heap fs) (current fs) l →
  pwd fs = Ok (fs, ["/" +:+ join "/" (List.rev l)]).
Proof.
  intros W Ha. unfold pwd.
  pose proof (ancestry_length _ _ _ (wf_heap _ W) (wf_cur _ W) Ha) as Hl.
  pose proof (wf_cur _ W) as Hc.
  rewrite (ancestry_pwd_loop _ _ _ Ha) by lia. done.
Qed.


Lemma cd_success fs path :
  path ≠ "/" → (cd fs path).2 = [] →
  ∃ t, _traverse fs (_parse_path path) = Some t ∧
       is_file (heap fs !!! t) = false ∧ (cd fs path).1 = with_current fs t.
Proof.
  intros Hp. unfold cd. rewrite decide_False by done.
  destruct (_traverse fs (_parse_path path)) as [t|]; [| done].
  destruct (is_file (heap fs !!! t)) eqn:Hf; [done |]. by exists t.
Qed.



Lemma traverse_loop_app h lc xs : ∀ cur ys,
  _traverse_loop h lc cur (xs ++ ys) =
    match _traverse_loop h lc cur xs with
    | Some n => _traverse_loop h lc n ys
    | None => None
    end.
Proof.
  induction xs as [|x xs IH]; intros cur ys; simpl; [done |].
  destruct (decide (x = "..")); [by destruct (parent (h !!! cur)) |].
  destruct (decide (x = ".")); [done |].
  destruct (children (h !!! cur) !! x) as [c|]; [| done].
  by destruct (is_file (h !!! c) && bool_decide (x ≠ lc)).
Qed.

Lemma traverse_back_up h lc lc' comps : ∀ cur t,
  heap_ok h → heap_links h → cur < length h → Forall plain comps →
  _traverse_loop h lc cur comps = Some t →
  _traverse_loop h lc' t (replicate (length comps) "..") = Some cur.
Proof.
  induction comps as [|comp rest IH]; intros cur t Hok Hl Hcur Hpl Ht.
  - simpl in *. by injection Ht as <-.
  - apply Forall_cons in Hpl as [Hp Hrest]. destruct Hp as [Hd Hdd].
    simpl in Ht.
    rewrite (decide_False (P := comp = "..")) in Ht by done.
    rewrite (decide_False (P := comp = ".")) in Ht by done.
    destruct (children (h !!! cur) !! comp) as [c|] eqn:Hc; [| done].
    destruct (ok_child _ Hok _ _ _ Hcur Hc) as [Hlt Hnm].
    destruct (is_file (h !!! c) && bool_decide (comp ≠ lc)); [done |].
    cbn [length]. rewrite replicate_S_end, traverse_loop_app.
    rewrite (IH c t) by done. simpl.
    by rewrite (Hl _ _ _ Hcur Hc).
Qed.

Lemma with_current_same fs : with_current fs (current fs) = fs.
Proof. by destruct fs. Qed.

Lemma dots_component n : Forall component (replicate n "..").
Proof. apply Forall_replicate. by split. Qed.

(** X7.  In a reachable state, after a successful [cd] along a path of
    [n] components, none of them ['.'] or ['..'], a [cd] to [n] times ['..']
    joined by ['/'] succeeds and gives back the state before the first
    [cd]. *)
Theorem X7_cd_then_back fs path :
  reachable fs → path ≠ "/" → Forall plain (_parse_path path) →
  (cd fs path).2 = [] →
  cd (cd fs path).1 (join "/" (replicate (length (_parse_path path)) ".."))
    = (fs, []).
Proof.
  intros R Hp Hpl Hcd. pose proof (reachable_wf _ R) as W.
  destruct (cd_success fs path Hp Hcd) as (t & Ht & Hf & Hst).
  set (n := length (_parse_path path)).
  assert (_parse_path (join "/" (replicate n "..")) = replicate n "..") as Hparse
    by apply parse_path_join, dots_component.
  unfold _traverse in Ht. rewrite start_node_parsed in Ht.
  rewrite Hst. unfold cd at 1.
  rewrite decide_False.
  2:{ intros Heq. rewrite Heq in Hparse. destruct n; [done |].
      simpl in Hparse. discriminate Hparse. }
  rewrite Hparse. unfold _traverse.
  rewrite <- Hparse at 2. rewrite start_node_parsed. cbn [heap current with_current].
  rewrite (traverse_back_up _ _ _ _ _ _ (wf_heap _ W) (reachable_links _ R)
             (wf_cur _ W) Hpl Ht).
  rewrite (wf_cur_dir _ W). cbn [negb].
  f_equal. by destruct fs.
Qed.

Lemma X7_cd_then_back_witness :
  let fs := state_of (run [Mkdir "a/b/c"; Cd "a"] FileSystem_init) in
  reachable fs ∧ "b/c" ≠ "/" ∧ Forall plain (_parse_path "b/c") ∧
  (cd fs "b/c").2 = [] ∧
  cd (cd fs "b/c").1 (join "/" (replicate (length (_parse_path "b/c")) ".."))
    = (fs, []).
Proof.
  intros fs. assert (reachable fs) as R by apply reachable_state_of.
  assert ("b/c" ≠ "/") as H1 by discriminate.
  assert (Forall plain (_parse_path "b/c")) as H2
    by (repeat constructor; discriminate).
  assert ((cd fs "b/c").2 = []) as H3 by reflexivity.
  split; [exact R |]. split; [exact H1 |]. split; [exact H2 |].
  split; [exact H3 |].
  exact (X7_cd_then_back fs "b/c" R H1 H2 H3).
Defined.

(** X8.  In every reachable state [cd /] moves the cursor to the root
    without printing, [pwd] then prints ["/"], and a following [cd ..]
    changes nothing and prints nothing. *)
Theorem X8_root_navigation fs :
  reachable fs →
  let fs0 := (cd fs "/").1 in
  (cd fs "/").2 = [] ∧ current fs0 = root fs ∧
  pwd fs0 = Ok (fs0, ["/"]) ∧ cd fs0 ".." = (fs0, []).
Proof.
  intros R fs0. pose proof (reachable_wf _ R) as W.
  pose proof (reachable_root_parent _ R) as Hroot.
  assert (fs0 = with_current fs (root fs)) as -> by done.
  split; [done |]. split; [done |]. split.
  - rewrite (pwd_ancestry _ []); [done | by apply (cd_wf fs "/") |].
    cbn [heap current with_current]. by constructor.
  - unfold cd. rewrite decide_False by done.
    change (_parse_path "..") with [".."]. unfold _traverse. simpl.
    rewrite Hroot, (wf_root_dir _ W). done.
Qed.

Lemma X8_root_navigation_witness :
  let fs := state_of (run [Mkdir "a/b"; Cd "a/b"; Rm "../../a"] FileSystem_init) in
  let fs0 := (cd fs "/").1 in
  reachable fs ∧
  (cd fs "/").2 = [] ∧ current fs0 = root fs ∧
  pwd fs0 = Ok (fs0, ["/"]) ∧ cd fs0 ".." = (fs0, []).
Proof.
  intros fs fs0. assert (reachable fs) as R by apply reachable_state_of.
  split; [exact R |]. exact (X8_root_navigation fs R).
Defined.

(** ** How heap changes affect resolution *)

(** The walk reads only [parent], [children] and [is_file]. *)
Lemma traverse_loop_frame h h' lc comps : ∀ cur,
  (∀ i, parent (h' !!! i) = parent (h !!! i) ∧
        children (h' !!! i) = children (h !!! i) ∧
        is_file (h' !!! i) = is_file (h !!! i)) →
  _traverse_loop h' lc cur comps = _traverse_loop h lc cur comps.
Proof.
  intros cur Hsame. revert cur.
  induction comps as [|x xs IH]; intros cur; simpl; [done |].
  destruct (Hsame cur) as (-> & -> & _).
  destruct (decide (x = "..")); [by destruct (parent (h !!! cur)) |].
  destruct (decide (x = ".")); [done |].
  destruct (children (h !!! cur) !! x) as [c|]; [| done].
  destruct (Hsame c) as (_ & _ & ->). by rewrite IH.
Qed.

Lemma write_content_same h n text i :
  parent (write_content h n text !!! i) = parent (h !!! i) ∧
  children (write_content h n text !!! i) = children (h !!! i) ∧
  is_file (write_content h n text !!! i) = is_file (h !!! i).
Proof.
  rewrite lookup_write_content.
  by case_decide as H; [destruct H as [-> _] |].
Qed.

(** A walk that succeeds keeps its result when the heap only grows. *)
Lemma traverse_loop_le h h' lc comps : ∀ cur n,
  heap_ok h → heap_le h h' → cur < length h →
  _traverse_loop h lc cur comps = Some n →
  _traverse_loop h' lc cur comps = Some n.
Proof.
  induction comps as [|x xs IH]; intros cur n Hok Hle Hcur; simpl; [done |].
  rewrite (ext_parent _ _ (le_ext _ _ Hle)) by done.
  destruct (decide (x = "..")).
  { destruct (parent (h !!! cur)) as [p|] eqn:Hp; [| by apply IH].
    destruct (ok_parent _ Hok _ _ Hcur Hp) as [Hlt _].
    apply IH; [done | done | lia]. }
  destruct (decide (x = ".")); [by apply IH |].
  destruct (children (h !!! cur) !! x) as [c|] eqn:Hc; [| done].
  rewrite (lookup_weaken _ _ _ _ Hc (le_children _ _ Hle _ Hcur)).
  destruct (ok_child _ Hok _ _ _ Hcur Hc) as [Hlt _].
  rewrite (ext_is_file _ _ (le_ext _ _ Hle)) by done.
  destruct (is_file (h !!! c) && bool_decide (x ≠ lc)); [done |].
  by apply IH.
Qed.

Lemma del_child_parent h d k i : parent (del_child h d k !!! i) = parent (h !!! i).
Proof. rewrite lookup_del_child. by case_decide; subst. Qed.

Lemma del_child_is_file h d k i : is_file (del_child h d k !!! i) = is_file (h !!! i).
Proof. rewrite lookup_del_child. by case_decide; subst. Qed.

(** Removing a dictionary entry makes a walk fail or leaves its result. *)
Lemma traverse_loop_del h d k lc comps : ∀ cur,
  _traverse_loop (del_child h d k) lc cur comps = None ∨
  _traverse_loop (del_child h d k) lc cur comps = _traverse_loop h lc cur comps.
Proof.
  induction comps as [|x xs IH]; intros cur; simpl; [by right |].
  rewrite (del_child_parent h d k cur).
  destruct (decide (x = "..")); [destruct (parent (h !!! cur)); apply IH |].
  destruct (decide (x = ".")); [apply IH |].
  destruct (children (del_child h d k !!! cur) !! x) as [c|] eqn:Hc; [| by left].
  assert (children (h !!! cur) !! x = Some c) as ->.
  { rewrite lookup_del_child in Hc. case_decide; subst; [| done]. simpl in Hc.
    by apply lookup_delete_Some in Hc as [_ ?]. }
  rewrite (del_child_is_file h d k c).
  destruct (is_file (h !!! c) && bool_decide (x ≠ lc)); [by left | apply IH].
Qed.

(** Two successful walks over the same components from the same node end
    at the same node, whatever last component their guards compare with. *)
Lemma traverse_loop_guard h l1 l2 comps : ∀ cur a b,
  _traverse_loop h l1 cur comps = Some a →
  _traverse_loop h l2 cur comps = Some b → a = b.
Proof.
  induction comps as [|x xs IH]; intros cur a b; simpl; [congruence |].
  destruct (decide (x = "..")); [destruct (parent (h !!! cur)); by apply IH |].
  destruct (decide (x = ".")); [by apply IH |].
  destruct (children (h !!! cur) !! x) as [c|]; [| done].
  destruct (is_file (h !!! c) && bool_decide (x ≠ l1)); [done |].
  destruct (is_file (h !!! c) && bool_decide (x ≠ l2)); [done |].
  by apply IH.
Qed.

Lemma start_node_nonempty fs comps :
  Forall (λ c, c ≠ "") comps → start_node fs comps = current fs.
Proof.
  intros H. unfold start_node. destruct comps as [|c ?]; [done |].
  apply Forall_cons in H as [Hc _]. by rewrite decide_False.
Qed.

(** ** Removing *)

Lemma rm_success fs path :
  (rm fs path).2 = ["Removed: " +:+ join "/" (_parse_path path)] →
  ∃ d c, _parse_path path ≠ [] ∧
    _traverse fs (List.removelast (_parse_path path)) = Some d ∧
    children (heap fs !!! d) !! List.last (_parse_path path) "" = Some c ∧
    (rm fs path).1 =
      with_heap fs (del_child (heap fs) d (List.last (_parse_path path) "")).
Proof.
  unfold rm. destruct (_parse_path path) as [|c0 rest] eqn:Hp.
  { intros H. simpl in H. discriminate H. }
  destruct (_traverse fs (List.removelast (c0 :: rest))) as [d|];
    [| intros H; simpl in H; discriminate H].
  destruct (children (heap fs !!! d) !! List.last (c0 :: rest) "") as [c|] eqn:Hc;
    [| intros H; simpl in H; discriminate H].
  intros _. by exists d, c.
Qed.

Lemma removelast_nonempty (comps : list string) :
  Forall (λ c, c ≠ "") comps → Forall (λ c, c ≠ "") (List.removelast comps).
Proof.
  intros H. destruct comps as [|c rest]; [done |].
  rewrite (app_removelast_last "" (l := c :: rest)) in H by done.
  by apply Forall_app in H as [? _].
Qed.

Lemma traverse_dirs fs path d :
  _traverse fs (List.removelast (_parse_path path)) = Some d →
  ∃ lc, _traverse_loop (heap fs) lc (current fs)
          (List.removelast (_parse_path path)) = Some d.
Proof.
  unfold _traverse. rewrite start_node_nonempty; [by eexists |].
  apply removelast_nonempty, parse_path_nonempty.
Qed.

(** X9.  In a reachable state, after [rm] has removed a path whose last
    component is neither ['.'] nor ['..'], the same path no longer
    resolves: [cd], [cat] and [ls] on it report a failure. *)
Theorem X9_removed_path_no_longer_resolves fs path :
  reachable fs →
  (rm fs path).2 = ["Removed: " +:+ join "/" (_parse_path path)] →
  plain (List.last (_parse_path path) "") →
  let fs' := (rm fs path).1 in
  _traverse fs' (_parse_path path) = None ∧
  (cd fs' path).2 = ["Directory not found: " +:+ join "/" (_parse_path path)] ∧
  (cat fs' path).2 = ["File not found: " +:+ join "/" (_parse_path path)] ∧
  (ls fs' path).2 = ["Path not found: " +:+ join "/" (_parse_path path)].
Proof.
  intros R Hrm Hplain fs'.
  destruct (rm_success fs path Hrm) as (d & c & Hne & Hd & Hc & Hst).
  destruct (traverse_dirs fs path d Hd) as [lc Hwalk].
  destruct Hplain as [Hdot Hdd].
  set (comps := _parse_path path) in *. set (k := List.last comps "") in *.
  assert (_traverse fs' comps = None) as Hnone.
  { unfold _traverse. subst fs'. rewrite Hst.
    rewrite start_node_nonempty by apply parse_path_nonempty.
    cbn [heap current with_heap]. fold k.
    rewrite (app_removelast_last "" (l := comps)) by done. fold k.
    rewrite traverse_loop_app.
    destruct (_traverse_loop (del_child (heap fs) d k) k (current fs)
                (List.removelast comps)) as [d'|] eqn:Hw'; [| done].
    destruct (traverse_loop_del (heap fs) d k k (List.removelast comps) (current fs))
      as [Hn | Heq]; [congruence |].
    rewrite Hw' in Heq. symmetry in Heq.
    assert (d' = d) as -> by (by eapply traverse_loop_guard).
    simpl. rewrite (decide_False (P := k = "..")) by done.
    rewrite (decide_False (P := k = ".")) by done.
    rewrite lookup_del_child, decide_True by done. simpl.
    by rewrite lookup_delete_eq. }
  split; [done |].
  assert (comps ≠ []) as Hne' by done.
  assert (path ≠ "/") as Hp by (intros ->; by apply Hne').
  split; [| split].
  - unfold cd. rewrite decide_False by done. fold comps. by rewrite Hnone.
  - unfold cat. fold comps. by rewrite Hnone.
  - unfold ls, ls_target. fold comps.
    destruct comps as [|c0 rest] eqn:Hcomps; [done |]. by rewrite Hnone.
Qed.

Lemma X9_removed_path_witness :
  let fs := state_of (run [Mkdir "a/b"; Touch "a/b/c.txt"; Cd "a"] FileSystem_init) in
  let fs' := (rm fs "../a").1 in
  reachable fs ∧
  (rm fs "../a").2 = ["Removed: " +:+ join "/" (_parse_path "../a")] ∧
  plain (List.last (_parse_path "../a") "") ∧
  _traverse fs' (_parse_path "../a") = None ∧
  (cd fs' "../a").2 = ["Directory not found: " +:+ join "/" (_parse_path "../a")] ∧
  (cat fs' "../a").2 = ["File not found: " +:+ join "/" (_parse_path "../a")] ∧
  (ls fs' "../a").2 = ["Path not found: " +:+ join "/" (_parse_path "../a")].
Proof.
  intros fs fs'. assert (reachable fs) as R by apply reachable_state_of.
  assert ((rm fs "../a").2 = ["Removed: " +:+ join "/" (_parse_path "../a")]) as H1
    by reflexivity.
  assert (plain (List.last (_parse_path "../a") "")) as H2
    by (split; discriminate).
  split; [exact R |]. split; [exact H1 |]. split; [exact H2 |].
  exact (X9_removed_path_no_longer_resolves fs "../a" R H1 H2).
Defined.

Lemma linked_parent h r x p :
  heap_ok h → heap_links h → r < length h → parent (h !!! r) = None →
  linked h r x → parent (h !!! x) = Some p →
  linked h r p ∧ children (h !!! p) !! name (h !!! x) = Some x.
Proof.
  intros Hok Hl Hr Hroot Hx Hp. destruct Hx as [|q k x Hq Hk]; [congruence |].
  assert (q < length h) as Hqv by (by eapply linked_bound).
  destruct (ok_child _ Hok _ _ _ Hqv Hk) as [_ <-].
  pose proof (Hl _ _ _ Hqv Hk) as Hpar.
  assert (q = p) as -> by congruence. done.
Qed.

Lemma rm_reachable fs path : reachable fs → reachable (rm fs path).1.
Proof.
  intros R. eapply (reachable_step fs (Rm path) _ (rm fs path).2); [done |].
  simpl. by destruct (rm fs path).
Qed.

(** X10.  In a reachable state, when [rm] removes the entry of a node,
    neither that node nor any node below it can be reached from the root by
    [children] links afterwards. *)
Theorem X10_rm_detaches_subtree fs path d c x :
  reachable fs →
  _parse_path path ≠ [] →
  _traverse fs (List.removelast (_parse_path path)) = Some d →
  children (heap fs !!! d) !! List.last (_parse_path path) "" = Some c →
  let fs' := (rm fs path).1 in
  linked (heap fs') c x →
  (rm fs path).2 = ["Removed: " +:+ join "/" (_parse_path path)] ∧
  ¬ linked (heap fs') (root fs') x.
Proof.
  intros R Hne Hd Hc fs' Hx.
  pose proof (reachable_wf _ R) as W.
  destruct (traverse_wf _ _ _ W Hd) as [Hdv _].
  destruct (ok_child _ (wf_heap _ W) _ _ _ Hdv Hc) as [Hcv Hcn].
  pose proof (reachable_links _ R _ _ _ Hdv Hc) as Hcp.
  assert (rm fs path =
          (with_heap fs (del_child (heap fs) d (List.last (_parse_path path) "")),
           ["Removed: " +:+ join "/" (_parse_path path)])) as Hrm.
  { unfold rm. destruct (_parse_path path) as [|c0 rest]; [done |].
    by rewrite Hd, Hc. }
  split; [by rewrite Hrm |].
  pose proof (rm_reachable fs path R) as R'. fold fs' in R'.
  pose proof (reachable_wf _ R') as W'.
  pose proof (reachable_links _ R') as Hl'.
  pose proof (reachable_root_parent _ R') as Hroot'.
  assert (heap fs' = del_child (heap fs) d (List.last (_parse_path path) "")) as Hh
    by (subst fs'; by rewrite Hrm).
  assert (c < length (heap fs')) as Hcv'
    by (rewrite Hh, length_del_child; done).
  induction Hx as [|p k x Hp IH Hk]; intros Hlink.
  - assert (parent (heap fs' !!! c) = Some d) as Hcp'
      by (by rewrite Hh, del_child_parent).
    destruct (linked_parent _ _ _ _ (wf_heap _ W') Hl' (wf_root _ W') Hroot'
                Hlink Hcp') as [_ Hentry].
    rewrite Hh in Hentry.
    rewrite (ext_name _ _ (del_child_ext _ _ _)), Hcn in Hentry by done.
    rewrite lookup_del_child, decide_True in Hentry by done. simpl in Hentry.
    by rewrite lookup_delete_eq in Hentry.
  - assert (p < length (heap fs')) as Hpv
      by (eapply linked_bound; [apply (wf_heap _ W') | done | done]).
    pose proof (Hl' _ _ _ Hpv Hk) as Hpar.
    destruct (linked_parent _ _ _ _ (wf_heap _ W') Hl' (wf_root _ W') Hroot'
                Hlink Hpar) as [Hlp _].
    by apply IH.
Qed.

Lemma X10_rm_detaches_witness :
  let fs := state_of (run [Mkdir "a/b"; Touch "a/b/c.txt"] FileSystem_init) in
  let fs' := (rm fs "a").1 in
  reachable fs ∧ _parse_path "a" ≠ [] ∧
  _traverse fs (List.removelast (_parse_path "a")) = Some 0 ∧
  children (heap fs !!! 0) !! List.last (_parse_path "a") "" = Some 1 ∧
  linked (heap fs') 1 3 ∧
  (rm fs "a").2 = ["Removed: " +:+ join "/" (_parse_path "a")] ∧
  ¬ linked (heap fs') (root fs') 3.
Proof.
  intros fs fs'. assert (reachable fs) as R by apply reachable_state_of.
  assert (_parse_path "a" ≠ []) as H1 by discriminate.
  assert (_traverse fs (List.removelast (_parse_path "a")) = Some 0) as H2
    by reflexivity.
  assert (children (heap fs !!! 0) !! List.last (_parse_path "a") "" = Some 1) as H3
    by reflexivity.
  assert (linked (heap fs') 1 3) as H4.
  { apply (linked_child _ _ 2 "c.txt"); [| reflexivity].
    apply (linked_child _ _ 1 "b"); [constructor | reflexivity]. }
  split; [exact R |]. split; [exact H1 |]. split; [exact H2 |].
  split; [exact H3 |]. split; [exact H4 |].
  exact (X10_rm_detaches_subtree fs "a" 0 1 3 R H1 H2 H3 H4).
Defined.

Lemma touch_created fs path :
  (touch fs path).2 = ["File '" +:+ List.last (_parse_path path) "" +:+ "' created"] →
  ∃ d, _parse_path path ≠ [] ∧
    _traverse fs (List.removelast (_parse_path path)) = Some d ∧
    is_file (heap fs !!! d) = false ∧
    children (heap fs !!! d) !! List.last (_parse_path path) "" = None ∧
    (touch fs path).1 =
      with_heap fs (add_child (heap fs) d (List.last (_parse_path path) "") true).
Proof.
  unfold touch. destruct (_parse_path path) as [|c0 rest] eqn:Hp.
  { intros H. simpl in H. discriminate H. }
  destruct (_traverse fs (List.removelast (c0 :: rest))) as [d|];
    [| intros H; cbn [snd] in H; injection H as H; simpl in H; discriminate H].
  destruct (is_file (heap fs !!! d)) eqn:Hf;
    [intros H; cbn [snd negb] in H; injection H as H; simpl in H; discriminate H |].
  cbn [negb]. generalize (List.last (c0 :: rest) ""). intros k.
  destruct (children (heap fs !!! d) !! k) as [c|] eqn:Hc.
  - intros H. cbn [snd] in H. injection H as H.
    cbn [String.append] in H.
    apply (inj (String.append k)) in H. discriminate H.
  - intros _. by exists d.
Qed.

(** X11.  In a reachable state, when [touch] has created a file, [rm] of the
    same path succeeds and every node that existed before the [touch] is
    again exactly as it was; the node of the removed file stays behind in
    the heap without any reference to it. *)
Theorem X11_touch_then_rm_restores fs path :
  reachable fs →
  (touch fs path).2 = ["File '" +:+ List.last (_parse_path path) "" +:+ "' created"] →
  ∃ g, rm (touch fs path).1 path =
         ({| heap := heap fs ++ [g]; root := root fs; current := current fs |},
          ["Removed: " +:+ join "/" (_parse_path path)]).
Proof.
  intros R Ht. pose proof (reachable_wf _ R) as W.
  destruct (touch_created fs path Ht) as (d & Hne & Hd & Hf & Hk & Hst).
  destruct (traverse_wf _ _ _ W Hd) as [Hdv Hdn].
  set (k := List.last (_parse_path path) "") in *.
  exists (TrieNode_init k true (Some d)).
  assert (_traverse (touch fs path).1 (List.removelast (_parse_path path)) = Some d)
    as Hd'.
  { rewrite Hst. revert Hd. unfold _traverse.
    rewrite !start_node_nonempty
      by apply removelast_nonempty, parse_path_nonempty.
    cbn [heap current with_heap].
    apply traverse_loop_le;
      [apply (wf_heap _ W) | by apply add_child_le | apply (wf_cur _ W)]. }
  unfold rm. destruct (_parse_path path) as [|c0 rest] eqn:Hp; [done |].
  rewrite Hd'. fold k. rewrite Hst. cbn [heap with_heap].
  rewrite lookup_add_child, decide_True by done. cbn [children set_children].
  rewrite lookup_insert_eq. unfold with_heap. cbn [root current].
  f_equal. f_equal.
  unfold del_child, add_child.
  rewrite list_lookup_total_insert_eq by (rewrite length_app; simpl; lia).
  rewrite list_insert_insert_eq. cbn [children set_children].
  rewrite delete_insert_eq, (delete_id _ _ ) by
    (by rewrite lookup_total_app_l by done).
  rewrite lookup_total_app_l by done.
  apply list_insert_id. rewrite lookup_app_l by done.
  rewrite (list_lookup_lookup_total_lt _ _ Hdv). f_equal.
  by destruct (heap fs !!! d).
Qed.

Lemma X11_touch_then_rm_witness :
  let fs := state_of (run [Mkdir "a"; Touch "a/g"] FileSystem_init) in
  reachable fs ∧
  (touch fs "a/..").2 =
    ["File '" +:+ List.last (_parse_path "a/..") "" +:+ "' created"] ∧
  ∃ g, rm (touch fs "a/..").1 "a/.." =
         ({| heap := heap fs ++ [g]; root := root fs; current := current fs |},
          ["Removed: " +:+ join "/" (_parse_path "a/..")]).
Proof.
  intros fs. assert (reachable fs) as R by apply reachable_state_of.
  assert ((touch fs "a/..").2 =
    ["File '" +:+ List.last (_parse_path "a/..") "" +:+ "' created"]) as H
    by reflexivity.
  split; [exact R |]. split; [exact H |].
  exact (X11_touch_then_rm_restores fs "a/.." R H).
Defined.

(** ** Writing *)

Lemma traverse_write_content fs n text comps :
  _traverse (with_heap fs (write_content (heap fs) n text)) comps = _traverse fs comps.
Proof.
  unfold _traverse.
  change (start_node (with_heap fs _) comps) with (start_node fs comps).
  cbn [heap with_heap]. apply traverse_loop_frame. intros i.
  apply write_content_same.
Qed.

Lemma write_content_twice h n t1 t2 :
  write_content (write_content h n t1) n t2 = write_content h n t2.
Proof.
  unfold write_content at 1. rewrite lookup_write_content.
  unfold write_content. rewrite list_insert_insert_eq. f_equal.
  by case_decide.
Qed.

(** X12.  Writing twice to the same path is the same as writing the
    second text alone: the state and the printed line agree. *)
Theorem X12_write_last_wins fs path t1 t2 :
  write (write fs path t1).1 path t2 = write fs path t2.
Proof.
  unfold write at 2 3.
  destruct (_traverse fs (_parse_path path)) as [n|] eqn:Ht.
  - destruct (is_file (heap fs !!! n)) eqn:Hf.
    + cbn [fst]. unfold write. rewrite traverse_write_content, Ht.
      cbn [heap with_heap].
      destruct (write_content_same (heap fs) n t1 n) as (_ & _ & ->).
      rewrite Hf. by rewrite write_content_twice.
    + cbn [fst]. unfold write. by rewrite Ht, Hf.
  - cbn [fst]. unfold write. by rewrite Ht.
Qed.

(** X13.  A write changes nothing that [ls] prints, for any path, and
    nothing that [cat] prints for a path that does not resolve to the node
    written to. *)
Theorem X13_write_leaves_other_output fs p text q :
  (∀ n, _traverse fs (_parse_path p) = Some n →
        _traverse fs (_parse_path q) ≠ Some n) →
  (cat (write fs p text).1 q).2 = (cat fs q).2 ∧
  ∀ q', (ls (write fs p text).1 q').2 = (ls fs q').2.
Proof.
  intros Hq. unfold write.
  destruct (_traverse fs (_parse_path p)) as [n|] eqn:Ht; [| done].
  destruct (is_file (heap fs !!! n)) eqn:Hf; [| done]. cbn [fst]. split.
  - unfold cat. rewrite traverse_write_content. cbn [heap with_heap].
    destruct (_traverse fs (_parse_path q)) as [m|] eqn:Hm; [| done].
    destruct (write_content_same (heap fs) n text m) as (_ & _ & ->).
    destruct (is_file (heap fs !!! m)); [| done]. cbn [snd].
    rewrite lookup_write_content, decide_False; [done |].
    intros [-> _]. by apply (Hq n).
  - intros q'. unfold ls, ls_target.
    assert (∀ m, ls_contents (write_content (heap fs) n text) m
                 = ls_contents (heap fs) m) as Hls.
    { intros m. unfold ls_contents, ls_entry.
      rewrite write_content_children. apply list_fmap_ext. intros _ kv _.
      by destruct (write_content_same (heap fs) n text kv.2) as (_ & _ & ->). }
    assert (∀ m, name (write_content (heap fs) n text !!! m)
                 = name (heap fs !!! m)) as Hnm.
    { intros m. rewrite lookup_write_content.
      by case_decide as H; [destruct H as [-> _] |]. }
    destruct (_parse_path q') as [|c rest].
    + cbn [heap with_heap current].
      destruct (write_content_same (heap fs) n text (current fs)) as (_ & _ & ->).
      rewrite Hls, Hnm. by destruct (is_file (heap fs !!! current fs)).
    + rewrite traverse_write_content. cbn [heap with_heap].
      destruct (_traverse fs (c :: rest)) as [m|]; [| done].
      destruct (write_content_same (heap fs) n text m) as (_ & _ & ->).
      rewrite Hls, Hnm. by destruct (is_file (heap fs !!! m)).
Qed.

Lemma X13_write_witness :
  let fs := state_of (run [Touch "f"; Touch "g"; Write "g" "old"] FileSystem_init) in
  (∀ n, _traverse fs (_parse_path "f") = Some n →
        _traverse fs (_parse_path "g") ≠ Some n) ∧
  (cat (write fs "f" "new").1 "g").2 = (cat fs "g").2 ∧
  ∀ q', (ls (write fs "f" "new").1 q').2 = (ls fs q').2.
Proof.
  intros fs.
  assert (∀ n, _traverse fs (_parse_path "f") = Some n →
               _traverse fs (_parse_path "g") ≠ Some n) as H.
  { intros n Hn Hg. vm_compute in Hn, Hg. congruence. }
  split; [exact H |]. exact (X13_write_leaves_other_output fs "f" "new" "g" H).
Defined.

(** ** What no operation undoes *)

Lemma exec_le c fs fs' out :
  wf fs → is_rm c = false → exec c fs = Ok (fs', out) →
  heap_le (heap fs) (heap fs') ∧ root fs' = root fs ∧
  (current fs' = current fs ∨ ∃ p, c = Cd p).
Proof.
  intros W Hc He. split; [| split; [by eapply exec_root |]].
  - destruct c; simpl in He; try done.
    + revert He. unfold mkdir.
      destruct (_traverse _ _); [intros [= <- _]; apply heap_le_refl |].
      unfold _create_directory.
      destruct (_parse_path path) as [|c rest] eqn:Hp; [done |].
      cbn [res_bind]. intros [= <- _]. cbn [heap].
      destruct (start_node_wf fs (c :: rest) W) as [Hs Hn].
      unfold start_node in Hs, Hn.
      exact (proj2 (create_loop_ok (c :: rest) _ _ (wf_heap _ W) Hs Hn)).
    + injection He as He. change fs' with (fs', out).1. rewrite <- He.
      unfold touch. destruct (_parse_path path) as [|c rest]; [apply heap_le_refl |].
      destruct (_traverse fs _) as [d|] eqn:Ht; [| apply heap_le_refl].
      destruct (traverse_wf _ _ _ W Ht) as [Hd Hn].
      destruct (negb _); [| apply heap_le_refl].
      destruct (children (heap fs !!! d) !! _) eqn:Hk; [apply heap_le_refl |].
      cbn [fst heap with_heap]. by apply add_child_le.
    + injection He as He. change fs' with (fs', out).1. rewrite <- He, ls_state.
      apply heap_le_refl.
    + injection He as He. change fs' with (fs', out).1. rewrite <- He.
      unfold cd. case_decide; [apply heap_le_refl |].
      destruct (_traverse _ _); [| apply heap_le_refl].
      destruct (negb _); apply heap_le_refl.
    + apply pwd_state in He as ->. apply heap_le_refl.
    + injection He as He. change fs' with (fs', out).1. rewrite <- He, cat_state.
      apply heap_le_refl.
    + injection He as He. change fs' with (fs', out).1. rewrite <- He.
      unfold write. destruct (_traverse _ _); [| apply heap_le_refl].
      destruct (is_file _); [| apply heap_le_refl]. cbn [fst heap with_heap].
      split; [apply write_content_ext |]. intros i _.
      by rewrite write_content_children.
  - destruct c; simpl in He; try done; try (right; by eexists).
    + left. revert He. unfold mkdir.
      destruct (_traverse _ _); [by intros [= <- _] |].
      unfold _create_directory. destruct (_parse_path path); [done |].
      cbn [res_bind]. by intros [= <- _].
    + left. injection He as He. change fs' with (fs', out).1. rewrite <- He.
      unfold touch. destruct (_parse_path path); [done |].
      destruct (_traverse _ _); [| done]. destruct (negb _); [| done].
      by destruct (_ !! _).
    + left. injection He as He. change fs' with (fs', out).1.
      by rewrite <- He, ls_state.
    + left. by apply pwd_state in He as ->.
    + left. injection He as He. change fs' with (fs', out).1.
      by rewrite <- He, cat_state.
    + left. injection He as He. change fs' with (fs', out).1. rewrite <- He.
      unfold write. destruct (_traverse _ _); [| done]. by destruct (is_file _).
Qed.

(** X14.  In a reachable state, a path that resolves keeps resolving to
    the same node after any [mkdir], [touch] or write: creating nodes and
    writing never break an existing path. *)
Theorem X14_creation_keeps_paths fs comps n c fs' out :
  reachable fs →
  _traverse fs comps = Some n →
  (∃ p, c = Mkdir p) ∨ (∃ p, c = Touch p) ∨ (∃ p t, c = Write p t) →
  exec c fs = Ok (fs', out) →
  _traverse fs' comps = Some n.
Proof.
  intros R Ht Hc He. pose proof (reachable_wf _ R) as W.
  assert (is_rm c = false) as Hrm by (destruct Hc as [[? ->]|[[? ->]|(? & ? & ->)]]; done).
  destruct (exec_le _ _ _ _ W Hrm He) as (Hle & Hroot & Hcur).
  assert (current fs' = current fs) as Hcur'.
  { destruct Hcur as [? | [p ->]]; [done |].
    destruct Hc as [[? ?]|[[? ?]|(? & ? & ?)]]; done. }
  revert Ht. unfold _traverse.
  assert (start_node fs' comps = start_node fs comps) as ->
    by (unfold start_node; by rewrite Hroot, Hcur').
  destruct (start_node_wf fs comps W) as [Hs _].
  apply traverse_loop_le; [apply (wf_heap _ W) | done | done].
Qed.

Lemma X14_creation_keeps_paths_witness :
  let fs := state_of (run [Mkdir "a"; Touch "a/f"] FileSystem_init) in
  reachable fs ∧
  _traverse fs ["a"; "f"] = Some 2 ∧
  ((∃ p, Mkdir "a/f/b" = Mkdir p) ∨ (∃ p, Mkdir "a/f/b" = Touch p) ∨
   (∃ p t, Mkdir "a/f/b" = Write p t)) ∧
  exec (Mkdir "a/f/b") fs = Ok (state_of (mkdir fs "a/f/b"), []) ∧
  _traverse (state_of (mkdir fs "a/f/b")) ["a"; "f"] = Some 2.
Proof.
  intros fs. assert (reachable fs) as R by apply reachable_state_of.
  assert (_traverse fs ["a"; "f"] = Some 2) as H1 by reflexivity.
  assert ((∃ p, Mkdir "a/f/b" = Mkdir p) ∨ (∃ p, Mkdir "a/f/b" = Touch p) ∨
   (∃ p t, Mkdir "a/f/b" = Write p t)) as H2 by (left; by eexists).
  assert (exec (Mkdir "a/f/b") fs = Ok (state_of (mkdir fs "a/f/b"), [])) as H3
    by (vm_compute; reflexivity).
  split; [exact R |]. split; [exact H1 |]. split; [exact H2 |].
  split; [exact H3 |].
  exact (X14_creation_keeps_paths fs ["a"; "f"] 2 _ _ _ R H1 H2 H3).
Defined.

(** X15.  Along any sequence of operations from a reachable state the
    heap never loses a node, and no node ever changes its name, its kind
    (file or directory) or its parent. *)
Theorem X15_nodes_keep_name_kind_parent cmds fs fs' out i :
  reachable fs → run cmds fs = Ok (fs', out) → i < length (heap fs) →
  i < length (heap fs') ∧
  name (heap fs' !!! i) = name (heap fs !!! i) ∧
  is_file (heap fs' !!! i) = is_file (heap fs !!! i) ∧
  parent (heap fs' !!! i) = parent (heap fs !!! i).
Proof.
  intros R Hr Hi. pose proof (run_ext _ _ _ _ (reachable_wf _ R) Hr) as E.
  pose proof (ext_length _ _ E).
  split; [lia |]. split; [by apply (ext_name _ _ E) |].
  split; [by apply (ext_is_file _ _ E) | by apply (ext_parent _ _ E)].
Qed.

Lemma X15_nodes_keep_witness :
  let fs := state_of (run [Mkdir "a"; Touch "a/f"] FileSystem_init) in
  let cmds := [Write "a/f" "x"; Rm "a"; Mkdir "a/f"; Touch "a/f/g"] in
  let fs' := state_of (run cmds fs) in
  reachable fs ∧
  run cmds fs = Ok (fs', ["Written to a/f"; "Removed: a"; "File 'g' created"]) ∧
  2 < length (heap fs) ∧
  2 < length (heap fs') ∧
  name (heap fs' !!! 2) = name (heap fs !!! 2) ∧
  is_file (heap fs' !!! 2) = is_file (heap fs !!! 2) ∧
  parent (heap fs' !!! 2) = parent (heap fs !!! 2).
Proof.
  intros fs cmds fs'. assert (reachable fs) as R by apply reachable_state_of.
  assert (run cmds fs
          = Ok (fs', ["Written to a/f"; "Removed: a"; "File 'g' created"])) as H1
    by (vm_compute; reflexivity).
  assert (2 < length (heap fs)) as H2 by (vm_compute; lia).
  split; [exact R |]. split; [exact H1 |]. split; [exact H2 |].
  exact (X15_nodes_keep_name_kind_parent cmds fs fs' _ 2 R H1 H2).
Defined.

(** ** Making a directory and entering it *)








(** ** More on files *)

Lemma traverse_last_name h lc comps cur t :
  heap_ok h → cur < length h → nav h cur →
  comps ≠ [] → plain (List.last comps "") →
  _traverse_loop h lc cur comps = Some t →
  name (h !!! t) = List.last comps "".
Proof.
  intros Hok Hcur Hnav Hne [Hd Hdd].
  rewrite (app_removelast_last "" (l := comps)) at 1 by done.
  rewrite traverse_loop_app.
  destruct (_traverse_loop h lc cur (List.removelast comps)) as [d|] eqn:Hw; [| done].
  destruct (traverse_loop_nav _ _ _ _ _ Hok Hcur Hnav Hw) as [Hdv _].
  simpl. rewrite (decide_False (P := _ = "..")) by done.
  rewrite (decide_False (P := _ = ".")) by done.
  destruct (children (h !!! d) !! List.last comps "") as [c|] eqn:Hc; [| done].
  destruct (ok_child _ Hok _ _ _ Hdv Hc) as [_ Hnm].
  destruct (is_file (h !!! c) && _); [done |]. by intros [= <-].
Qed.

(** X19.  In a reachable state, when a path whose last component is
    neither ['.'] nor ['..'] resolves to a file, [ls] of that path prints
    exactly that last component. *)
Theorem X19_ls_file_prints_last_component fs path t :
  reachable fs →
  _traverse fs (_parse_path path) = Some t →
  is_file (heap fs !!! t) = true →
  plain (List.last (_parse_path path) "") →
  (ls fs path).2 = [List.last (_parse_path path) ""].
Proof.
  intros R Ht Hf Hpl. pose proof (reachable_wf _ R) as W.
  assert (_parse_path path ≠ []) as Hne.
  { intros He. rewrite He in Ht. injection Ht as <-.
    by rewrite (wf_cur_dir _ W) in Hf. }
  unfold ls, ls_target.
  destruct (_parse_path path) as [|c0 rest] eqn:Hp; [done |].
  rewrite Ht, Hf. cbn [snd]. f_equal.
  unfold _traverse in Ht.
  destruct (start_node_wf fs (c0 :: rest) W) as [Hs Hn].
  eapply traverse_last_name;
    [apply (wf_heap _ W) | exact Hs | exact Hn | done | done | exact Ht].
Qed.

Lemma X19_ls_file_witness :
  let fs := state_of (run [Mkdir "a"; Touch "a/notes.txt"] FileSystem_init) in
  reachable fs ∧
  _traverse fs (_parse_path "a/./notes.txt") = Some 2 ∧
  is_file (heap fs !!! 2) = true ∧
  plain (List.last (_parse_path "a/./notes.txt") "") ∧
  (ls fs "a/./notes.txt").2 = [List.last (_parse_path "a/./notes.txt") ""].
Proof.
  intros fs. assert (reachable fs) as R by apply reachable_state_of.
  assert (_traverse fs (_parse_path "a/./notes.txt") = Some 2) as H1 by reflexivity.
  assert (is_file (heap fs !!! 2) = true) as H2 by reflexivity.
  assert (plain (List.last (_parse_path "a/./notes.txt") "")) as H3
    by (split; discriminate).
  split; [exact R |]. split; [exact H1 |]. split; [exact H2 |].
  split; [exact H3 |].
  exact (X19_ls_file_prints_last_component fs "a/./notes.txt" 2 R H1 H2 H3).
Defined.

Lemma create_loop_new comps : ∀ h cur,
  heap_ok h → cur < length h → nav h cur →
  length (_create_loop h cur comps) ≤ length h + length comps ∧
  ∀ i, length h ≤ i → i < length (_create_loop h cur comps) →
       is_file (_create_loop h cur comps !!! i) = false.
Proof.
  induction comps as [|comp rest IH]; intros h cur Hok Hcur Hnav; simpl.
  - split; [lia |]. intros i ? ?. lia.
  - destruct (decide (comp = "..")) as [->|Hdd].
    { destruct (parent (h !!! cur)) as [p|] eqn:Hp.
      - destruct (ok_parent _ Hok _ _ Hcur Hp) as [Hlt Hn].
        destruct (IH h p Hok ltac:(lia) Hn) as [Hl Hnew]. split; [lia | done].
      - destruct (IH h cur Hok Hcur Hnav) as [Hl Hnew]. split; [lia | done]. }
    destruct (decide (comp = ".")) as [->|Hd].
    { destruct (IH h cur Hok Hcur Hnav) as [Hl Hnew]. split; [lia | done]. }
    destruct (children (h !!! cur) !! comp) as [c|] eqn:Hc.
    + destruct (ok_child _ Hok _ _ _ Hcur Hc) as [Hlt Hnm].
      assert (nav h c) as Hnc by (unfold nav; by rewrite Hnm).
      destruct (IH h c Hok Hlt Hnc) as [Hl Hnew]. split; [lia | done].
    + pose proof (add_child_ok h cur comp false Hok Hcur Hnav Hc) as Hok1.
      assert (length (add_child h cur comp false) = S (length h)) as Hlen
        by apply length_add_child.
      assert (add_child h cur comp false !!! length h
              = TrieNode_init comp false (Some cur)) as Hnode.
      { rewrite lookup_add_child by done.
        rewrite decide_False by lia. by rewrite decide_True. }
      set (h1 := add_child h cur comp false) in *. clearbody h1.
      assert (nav h1 (length h)) as Hnav1 by (unfold nav; by rewrite Hnode).
      assert (length h < length h1) as Hlt1 by lia.
      destruct (IH h1 (length h) Hok1 Hlt1 Hnav1) as [Hl Hnew].
      pose proof (create_loop_ok rest _ _ Hok1 Hlt1 Hnav1) as [_ Hle2].
      split; [lia |]. intros i Hi Hi'.
      destruct (decide (i = length h)) as [->|Hne].
      * rewrite (ext_is_file _ _ (le_ext _ _ Hle2)) by done.
        by rewrite Hnode.
      * apply Hnew; lia.
Qed.

(** X20.  In a reachable state [mkdir] adds at most as many nodes as the
    path has components, every added node is a directory, and the cursor
    stays where it was. *)
Theorem X20_mkdir_adds_directories_only fs path fs' out :
  reachable fs → mkdir fs path = Ok (fs', out) →
  length (heap fs') ≤ length (heap fs) + length (_parse_path path) ∧
  current fs' = current fs ∧
  ∀ i, length (heap fs) ≤ i → i < length (heap fs') →
       is_file (heap fs' !!! i) = false.
Proof.
  intros R. pose proof (reachable_wf _ R) as W. unfold mkdir.
  destruct (_traverse fs (_parse_path path)) as [n|].
  { intros [= <- _]. split; [lia |]. split; [done |]. intros i ? ?. lia. }
  unfold _create_directory.
  destruct (_parse_path path) as [|c0 rest] eqn:Hp; [done |].
  cbn [res_bind]. intros [= <- _]. cbn [heap current].
  destruct (start_node_wf fs (c0 :: rest) W) as [Hs Hn].
  unfold start_node in Hs, Hn.
  destruct (create_loop_new (c0 :: rest) _ _ (wf_heap _ W) Hs Hn) as [Hl Hnew].
  done.
Qed.

Lemma X20_mkdir_adds_witness :
  let fs := state_of (run [Mkdir "a"; Touch "a/f"] FileSystem_init) in
  let fs' := state_of (mkdir fs "a/f/../x/./y") in
  reachable fs ∧ mkdir fs "a/f/../x/./y" = Ok (fs', []) ∧
  length (heap fs') ≤ length (heap fs) + length (_parse_path "a/f/../x/./y") ∧
  current fs' = current fs ∧
  ∀ i, length (heap fs) ≤ i → i < length (heap fs') →
       is_file (heap fs' !!! i) = false.
Proof.
  intros fs fs'. assert (reachable fs) as R by apply reachable_state_of.
  assert (mkdir fs "a/f/../x/./y" = Ok (fs', [])) as H by (vm_compute; reflexivity).
  split; [exact R |]. split; [exact H |].
  exact (X20_mkdir_adds_directories_only fs "a/f/../x/./y" fs' [] R H).
Defined.

(** X21.  In a reachable state, a file that [touch] has just created under
    the cursor (a path of one component, neither ['.'] nor ['..']) reads as
    the empty text. *)
Theorem X21_fresh_file_is_empty fs nm :
  reachable fs → _parse_path nm = [nm] → plain nm →
  (touch fs nm).2 = ["File '" +:+ nm +:+ "' created"] →
  (cat (touch fs nm).1 nm).2 = [""].
Proof.
  intros R Hp [Hd Hdd] Ht. pose proof (reachable_wf _ R) as W.
  assert (nm ≠ "") as He.
  { pose proof (parse_path_nonempty nm) as H. rewrite Hp in H.
    by apply Forall_cons in H as [? _]. }
  assert ((touch fs nm).2 =
          ["File '" +:+ List.last (_parse_path nm) "" +:+ "' created"]) as Ht'
    by (by rewrite Hp).
  destruct (touch_created fs nm Ht') as (d & _ & Hdir & Hf & Hk & Hst).
  rewrite Hp in Hdir, Hk, Hst. cbn [List.removelast List.last] in Hdir, Hk, Hst.
  rewrite traverse_nil in Hdir. injection Hdir as <-.
  pose proof (wf_cur _ W) as Hcur.
  unfold cat. rewrite Hp, Hst.
  rewrite (traverse_single _ nm (length (heap fs))); try done.
  - cbn [heap with_heap]. rewrite lookup_add_child by done.
    rewrite decide_False by lia. by rewrite decide_True.
  - cbn [heap with_heap current]. rewrite lookup_add_child by done.
    rewrite decide_True by done. simpl. by rewrite lookup_insert_eq.
Qed.

Lemma X21_fresh_file_witness :
  let fs := state_of (run [Mkdir "d"; Cd "d"; Touch "other"] FileSystem_init) in
  reachable fs ∧ _parse_path "new.txt" = ["new.txt"] ∧ plain "new.txt" ∧
  (touch fs "new.txt").2 = ["File '" +:+ "new.txt" +:+ "' created"] ∧
  (cat (touch fs "new.txt").1 "new.txt").2 = [""].
Proof.
  intros fs. assert (reachable fs) as R by apply reachable_state_of.
  assert (_parse_path "new.txt" = ["new.txt"]) as H1 by reflexivity.
  assert (plain "new.txt") as H2 by (split; discriminate).
  assert ((touch fs "new.txt").2 = ["File '" +:+ "new.txt" +:+ "' created"]) as H3
    by reflexivity.
  split; [exact R |]. split; [exact H1 |]. split; [exact H2 |].
  split; [exact H3 |].
  exact (X21_fresh_file_is_empty fs "new.txt" R H1 H2 H3).
Defined.

(** X22.  In a reachable state, whenever a write reports success, [cat] of
    the same path prints exactly the written text, whatever the path looks
    like. *)
Theorem X22_write_then_cat fs path text :
  reachable fs →
  (write fs path text).2 = ["Written to " +:+ path] →
  (cat (write fs path text).1 path).2 = [text].
Proof.
  intros R. pose proof (reachable_wf _ R) as W. unfold write.
  destruct (_traverse fs (_parse_path path)) as [n|] eqn:Ht;
    [| intros H; simpl in H; discriminate H].
  destruct (is_file (heap fs !!! n)) eqn:Hf;
    [| intros H; simpl in H; discriminate H].
  intros _. cbn [fst]. unfold cat.
  rewrite traverse_write_content, Ht. cbn [heap with_heap].
  destruct (write_content_same (heap fs) n text n) as (_ & _ & ->).
  rewrite Hf. cbn [snd]. rewrite lookup_write_content, decide_True; [done |].
  split; [done |]. by destruct (traverse_wf _ _ _ W Ht).
Qed.

Lemma X22_write_then_cat_witness :
  let fs := state_of (run [Mkdir "a/b"; Touch "a/f"; Cd "a/b"] FileSystem_init) in
  reachable fs ∧
  (write fs "..//./f" "hello").2 = ["Written to " +:+ "..//./f"] ∧
  (cat (write fs "..//./f" "hello").1 "..//./f").2 = ["hello"].
Proof.
  intros fs. assert (reachable fs) as R by apply reachable_state_of.
  assert ((write fs "..//./f" "hello").2 = ["Written to " +:+ "..//./f"]) as H
    by reflexivity.
  split; [exact R |]. split; [exact H |].
  exact (X22_write_then_cat fs "..//./f" "hello" R H).
Defined.

(** ** Tab completion *)

(** X17.  When the line holds no word or more than one, [complete] never
    returns a suggestion: it resolves the last word in a tree constructed on
    the spot, which has no children, so the result is [None] or an
    [IndexError]. *)
Theorem X17_complete_suggests_no_path components text state :
  length components ≠ 1 →
  complete components text state = Ok None ∨
  complete components text state = Raise IndexError.
Proof.
  intros Hlen. unfold complete. rewrite decide_False by done.
  destruct components as [|w ws]; [by right |].
  destruct (_traverse FileSystem_init _) as [node|] eqn:Ht; [| by left].
  destruct (traverse_wf _ _ _ wf_init Ht) as [Hn _]. simpl in Hn.
  assert (node = 0) as -> by lia. right.
  change (children (heap FileSystem_init !!! 0)) with (∅ : gmap string nat).
  by rewrite map_to_list_empty.
Qed.

Lemma X17_complete_witness :
  length ["ls"; "../."] ≠ 1 ∧
  (complete ["ls"; "../."] "" 0 = Ok None ∨
   complete ["ls"; "../."] "" 0 = Raise IndexError).
Proof.
  assert (length ["ls"; "../."] ≠ 1) as H by (simpl; lia).
  split; [exact H | exact (X17_complete_suggests_no_path _ "" 0 H)].
Defined.

(** X18.  When the line holds exactly one word, every suggestion that
    [complete] returns is one of the ten command names followed by a space,
    and that command name begins with [text]. *)
Theorem X18_complete_suggests_commands components text state s :
  length components = 1 →
  complete components text state = Ok (Some s) →
  ∃ cmd, cmd ∈ commands ∧ String.prefix text cmd = true ∧ s = cmd +:+ " ".
Proof.
  intros Hlen. unfold complete. rewrite decide_True by done.
  rewrite list_lookup_fmap.
  destruct (filter _ commands !! state) as [cmd|] eqn:Hl; [| done].
  simpl. intros [= <-].
  apply list_elem_of_lookup_2, list_elem_of_filter in Hl as [Hp Hin].
  by exists cmd.
Qed.

Lemma X18_complete_witness :
  length ["c"] = 1 ∧
  complete ["c"] "c" 1 = Ok (Some "clear ") ∧
  ∃ cmd, cmd ∈ commands ∧ String.prefix "c" cmd = true ∧ "clear " = cmd +:+ " ".
Proof.
  assert (length ["c"] = 1) as H1 by reflexivity.
  assert (complete ["c"] "c" 1 = Ok (Some "clear ")) as H2 by reflexivity.
  split; [exact H1 |]. split; [exact H2 |].
  exact (X18_complete_suggests_commands ["c"] "c" 1 "clear " H1 H2).
Defined.

(** ** When the cursor stays reachable from the root *)

Lemma del_child_entry h d k p k' y :
  children (del_child h d k !!! p) !! k' = Some y →
  children (h !!! p) !! k' = Some y ∧ (p, k') ≠ (d, k).
Proof.
  rewrite lookup_del_child. case_decide as Hp; [subst p |].
  - simpl. intros [Hne Hy]%lookup_delete_Some. split; [done | congruence].
  - intros Hy. split; [done | congruence].
Qed.

Lemma linked_del_sub h d k r y : linked (del_child h d k) r y → linked h r y.
Proof.
  induction 1 as [|p k' y _ IH Hy]; [constructor |].
  apply del_child_entry in Hy as [Hy _]. by eapply linked_child.
Qed.

Lemma linked_del_keep h d k x r y :
  children (h !!! d) !! k = Some x →
  linked h r y → ¬ linked h x y → linked (del_child h d k) r y.
Proof.
  intros Hx Hl. induction Hl as [|p k' y Hp IH Hy]; intros Hn; [constructor |].
  assert (¬ linked h x p) as Hnp
    by (intros Hxp; apply Hn; by eapply linked_child).
  eapply linked_child; [by apply IH |].
  rewrite lookup_del_child. case_decide as Hpd; [subst p | done].
  simpl. rewrite lookup_delete_ne; [done |].
  intros <-. apply Hn. assert (y = x) as -> by congruence. constructor.
Qed.

Lemma linked_index h a b :
  heap_ok h → heap_links h → a < length h → linked h a b → a ≤ b.
Proof.
  intros Hok Hl Ha. induction 1 as [|p k b Hp IH Hb]; [done |].
  assert (p < length h) as Hpv by (by eapply linked_bound).
  destruct (ok_child _ Hok _ _ _ Hpv Hb) as [Hbv _].
  destruct (ok_parent _ Hok _ _ Hbv (Hl _ _ _ Hpv Hb)) as [Hlt _]. lia.
Qed.

Lemma linked_del_below h d k x y :
  heap_ok h → heap_links h → d < length h →
  children (h !!! d) !! k = Some x →
  linked h x y → linked (del_child h d k) x y.
Proof.
  intros Hok Hl Hd Hx.
  destruct (ok_child _ Hok _ _ _ Hd Hx) as [Hxv _].
  destruct (ok_parent _ Hok _ _ Hxv (Hl _ _ _ Hd Hx)) as [Hdx _].
  induction 1 as [|p k' y Hp IH Hy]; [constructor |].
  eapply linked_child; [done |].
  rewrite lookup_del_child. case_decide as Hpd; [subst p | done].
  pose proof (linked_index _ _ _ Hok Hl Hxv Hp). lia.
Qed.

Lemma rm_detached fs path d x y :
  reachable fs →
  _parse_path path ≠ [] →
  _traverse fs (List.removelast (_parse_path path)) = Some d →
  children (heap fs !!! d) !! List.last (_parse_path path) "" = Some x →
  linked (heap (rm fs path).1) x y →
  ¬ linked (heap (rm fs path).1) (root fs) y.
Proof.
  intros R Hne Hd Hc Hx.
  pose proof (reachable_wf _ R) as W.
  destruct (traverse_wf _ _ _ W Hd) as [Hdv _].
  destruct (ok_child _ (wf_heap _ W) _ _ _ Hdv Hc) as [Hcv Hcn].
  pose proof (reachable_links _ R _ _ _ Hdv Hc) as Hcp.
  assert ((rm fs path).1 =
          with_heap fs (del_child (heap fs) d (List.last (_parse_path path) "")))
    as Hrm.
  { unfold rm. destruct (_parse_path path) as [|c0 rest]; [done |].
    by rewrite Hd, Hc. }
  pose proof (rm_reachable fs path R) as R'.
  pose proof (reachable_wf _ R') as W'.
  pose proof (reachable_links _ R') as Hl'.
  pose proof (reachable_root_parent _ R') as Hroot'.
  assert (root (rm fs path).1 = root fs) as Hr by (by rewrite Hrm).
  rewrite Hr in Hroot'. pose proof (wf_root _ W') as Hrv. rewrite Hr in Hrv.
  assert (heap (rm fs path).1
          = del_child (heap fs) d (List.last (_parse_path path) "")) as Hh
    by (by rewrite Hrm).
  assert (x < length (heap (rm fs path).1)) as Hxv'
    by (rewrite Hh, length_del_child; done).
  induction Hx as [|p k y Hp IH Hk]; intros Hlink.
  - assert (parent (heap (rm fs path).1 !!! x) = Some d) as Hcp'
      by (by rewrite Hh, del_child_parent).
    destruct (linked_parent _ _ _ _ (wf_heap _ W') Hl' Hrv Hroot' Hlink Hcp')
      as [_ Hentry].
    rewrite Hh in Hentry.
    rewrite (ext_name _ _ (del_child_ext _ _ _)), Hcn in Hentry by done.
    rewrite lookup_del_child, decide_True in Hentry by done. simpl in Hentry.
    by rewrite lookup_delete_eq in Hentry.
  - assert (p < length (heap (rm fs path).1)) as Hpv
      by (eapply linked_bound; [apply (wf_heap _ W') | done | done]).
    pose proof (Hl' _ _ _ Hpv Hk) as Hpar.
    destruct (linked_parent _ _ _ _ (wf_heap _ W') Hl' Hrv Hroot' Hlink Hpar)
      as [Hlp _].
    by apply IH.
Qed.

Lemma add_child_linked_inv h p k isf r :
  heap_ok h → p < length h → nav h p → children (h !!! p) !! k = None →
  r < length h →
  ∀ x, linked (add_child h p k isf) r x → x < length h → linked h r x.
Proof.
  intros Hok Hp Hnav Hk Hr x Hl.
  pose proof (add_child_ok h p k isf Hok Hp Hnav Hk) as Hok1.
  assert (r < length (add_child h p k isf)) as Hr1
    by (rewrite length_add_child; lia).
  induction Hl as [|q k' x Hq IH Hx]; intros Hxv; [constructor |].
  assert (q < length (add_child h p k isf)) as Hqv by (by eapply linked_bound).
  rewrite length_add_child in Hqv.
  rewrite lookup_add_child in Hx by done.
  destruct (decide (q = p)) as [->|Hqp]; simpl in Hx.
  - destruct (decide (k' = k)) as [->|Hkk].
    + rewrite lookup_insert_eq in Hx. injection Hx as <-. lia.
    + rewrite lookup_insert_ne in Hx by done.
      eapply linked_child; [by apply IH | done].
  - destruct (decide (q = length h)) as [->|Hql]; simpl in Hx.
    + by rewrite lookup_empty in Hx.
    + eapply linked_child; [apply IH; lia | done].
Qed.

Lemma write_content_linked_inv h n text r x :
  linked (write_content h n text) r x → linked h r x.
Proof.
  induction 1 as [|p k x _ IH Hx]; [constructor |].
  rewrite write_content_children in Hx. by eapply linked_child.
Qed.

Lemma heap_steps_length h h' : heap_steps h h' → length h ≤ length h'.
Proof.
  induction 1 as [| h p k isf h' ? ? ? ? _ IH | h p k h' ? _ IH | h n t h' ? _ IH];
    [done | | |].
  - rewrite length_add_child in IH. lia.
  - by rewrite length_del_child in IH.
  - by rewrite length_write_content in IH.
Qed.

(** No heap change makes an existing node reachable that was not. *)
Lemma heap_steps_linked_inv h h' r :
  heap_steps h h' → r < length h →
  ∀ x, x < length h → linked h' r x → linked h r x.
Proof.
  induction 1 as [| h p k isf h' Hok Hp Hnav Hk _ IH | h p k h' Hok _ IH
                  | h n t h' Hok _ IH];
    intros Hr x Hx Hl; [done | | |].
  - apply (add_child_linked_inv h p k isf r Hok Hp Hnav Hk Hr); [| done].
    apply IH; [| | done]; rewrite length_add_child; lia.
  - eapply linked_del_sub. apply IH; [| | done]; by rewrite length_del_child.
  - eapply write_content_linked_inv.
    apply IH; [| | done]; by rewrite length_write_content.
Qed.

Lemma traverse_loop_linked h r lc comps : ∀ cur t,
  heap_ok h → heap_links h → r < length h → parent (h !!! r) = None →
  linked h r cur → _traverse_loop h lc cur comps = Some t → linked h r t.
Proof.
  induction comps as [|x xs IH]; intros cur t Hok Hl Hr Hroot Hcur; simpl.
  - by intros [= <-].
  - destruct (decide (x = "..")).
    { destruct (parent (h !!! cur)) as [p|] eqn:Hp; [| by apply IH].
      destruct (linked_parent _ _ _ _ Hok Hl Hr Hroot Hcur Hp) as [Hlp _].
      by apply IH. }
    destruct (decide (x = ".")); [by apply IH |].
    destruct (children (h !!! cur) !! x) as [c|] eqn:Hc; [| done].
    destruct (is_file (h !!! c) && bool_decide (x ≠ lc)); [done |].
    apply IH; try done. by eapply linked_child.
Qed.

Lemma cd_keeps_linked fs path :
  reachable fs → linked (heap fs) (root fs) (current fs) →
  linked (heap (cd fs path).1) (root (cd fs path).1) (current (cd fs path).1).
Proof.
  intros R Hl. pose proof (reachable_wf _ R) as W. unfold cd.
  case_decide; [constructor |].
  destruct (_traverse fs (_parse_path path)) as [t|] eqn:Ht; [| done].
  destruct (is_file (heap fs !!! t)); [done |]. cbn [negb fst].
  cbn [heap root current with_current].
  unfold _traverse in Ht. rewrite start_node_parsed in Ht.
  eapply traverse_loop_linked;
    [apply (wf_heap _ W) | by apply reachable_links | apply (wf_root _ W)
    | by apply reachable_root_parent | done | done].
Qed.

Lemma rm_linked_iff fs path :
  reachable fs →
  current (rm fs path).1 = current fs ∧
  (linked (heap (rm fs path).1) (root fs) (current fs) ↔
   linked (heap fs) (root fs) (current fs) ∧ ¬ rm_detaches_cursor (Rm path) fs).
Proof.
  intros R. pose proof (reachable_wf _ R) as W.
  destruct (_parse_path path) as [|c0 rest] eqn:Hp.
  { assert ((rm fs path).1 = fs) as -> by (unfold rm; by rewrite Hp).
    split; [done |]. split; [| by intros [? _]].
    intros Hl. split; [done |].
    intros (p & d & x & [= <-] & Hne & _). by rewrite Hp in Hne. }
  destruct (_traverse fs (List.removelast (c0 :: rest))) as [d|] eqn:Hd.
  2:{ assert ((rm fs path).1 = fs) as -> by (unfold rm; by rewrite Hp, Hd).
      split; [done |]. split; [| by intros [? _]].
      intros Hl. split; [done |].
      intros (p & d & x & [= <-] & _ & Hd' & _). rewrite Hp in Hd'. congruence. }
  destruct (children (heap fs !!! d) !! List.last (c0 :: rest) "") as [x|] eqn:Hx.
  2:{ assert ((rm fs path).1 = fs) as -> by (unfold rm; by rewrite Hp, Hd, Hx).
      split; [done |]. split; [| by intros [? _]].
      intros Hl. split; [done |].
      intros (p & d' & x & [= <-] & _ & Hd' & Hx' & _). rewrite Hp in Hd', Hx'.
      congruence. }
  assert ((rm fs path).1
          = with_heap fs (del_child (heap fs) d (List.last (c0 :: rest) ""))) as Hrm
    by (unfold rm; by rewrite Hp, Hd, Hx).
  destruct (traverse_wf _ _ _ W Hd) as [Hdv _].
  split; [by rewrite Hrm |]. split.
  - intros Hl. split.
    { rewrite Hrm in Hl. cbn [heap with_heap] in Hl.
      by apply linked_del_sub in Hl. }
    intros (p & d' & x' & [= <-] & Hne & Hd' & Hx' & Hbelow).
    rewrite Hp in Hd', Hx'.
    assert (d' = d) as -> by congruence. assert (x' = x) as -> by congruence.
    apply (rm_detached fs path d x (current fs) R); try (by rewrite Hp); [| done].
    rewrite Hrm. cbn [heap with_heap].
    by apply linked_del_below;
      [apply (wf_heap _ W) | apply reachable_links | |  |].
  - intros [Hl Hn]. rewrite Hrm. cbn [heap with_heap].
    eapply linked_del_keep; [done | done |].
    intros Hbelow. apply Hn. exists path, d, x.
    rewrite Hp. by repeat split.
Qed.

(** C6 (amended).  In every state that a sequence of operations produces
    from the initial tree, the cursor designates a node that is not a file.
    Only [cd] moves the cursor; [rm] in particular leaves it where it is.
    The cursor of the initial tree can be reached from the root by
    [children] links, and after any operation other than [cd] it can be
    reached exactly when it could be reached before and the operation was
    not an [rm] that removed the entry of the cursor's node or of one of
    its ancestors.  A [cd] from a cursor that can be reached leads to a node
    that can be reached. *)
Theorem C6_cursor_linked_unless_rm_detaches fs c fs' out :
  reachable fs → exec c fs = Ok (fs', out) →
  linked (heap FileSystem_init) (root FileSystem_init) (current FileSystem_init) ∧
  (current fs < length (heap fs) ∧ is_file (heap fs !!! current fs) = false) ∧
  (current fs' < length (heap fs') ∧ is_file (heap fs' !!! current fs') = false) ∧
  ((∀ p, c ≠ Cd p) →
     current fs' = current fs ∧
     (linked (heap fs') (root fs') (current fs') ↔
      linked (heap fs) (root fs) (current fs) ∧ ¬ rm_detaches_cursor c fs)) ∧
  ((∃ p, c = Cd p) →
     linked (heap fs) (root fs) (current fs) →
     linked (heap fs') (root fs') (current fs')).
Proof.
  intros R He. pose proof (reachable_wf _ R) as W.
  pose proof (exec_wf _ _ _ _ W He) as W'.
  split; [constructor |].
  split; [split; [apply (wf_cur _ W) | apply (wf_cur_dir _ W)] |].
  split; [split; [apply (wf_cur _ W') | apply (wf_cur_dir _ W')] |].
  split.
  - intros Hcd. rewrite (exec_root _ _ _ _ He).
    destruct (is_rm c) eqn:Hrm.
    + destruct c as [| | | | | | |path]; try done. simpl in He.
      injection He as He. destruct (rm_linked_iff fs path R) as [Hc Hiff].
      assert (fs' = (rm fs path).1) as -> by (by rewrite He).
      split; [done |]. by rewrite Hc.
    + destruct (exec_le _ _ _ _ W Hrm He) as (Hle & _ & Hcur).
      assert (current fs' = current fs) as Hcur'.
      { destruct Hcur as [? | [p ->]]; [done | by destruct (Hcd p)]. }
      split; [done |]. rewrite Hcur'. split.
      * intros Hl. split.
        -- eapply heap_steps_linked_inv;
             [by eapply exec_steps | apply (wf_root _ W) | apply (wf_cur _ W) | done].
        -- intros (p & d & x & -> & _). done.
      * intros [Hl _].
        eapply linked_le; [apply (wf_heap _ W) | apply (wf_root _ W) | done | done].
  - intros [p ->] Hl. simpl in He. injection He as He.
    assert (fs' = (cd fs p).1) as -> by (by rewrite He).
    by apply cd_keeps_linked.
Qed.

Lemma C6_cursor_linked_witness :
  let fs := state_of (run [Mkdir "a/b"; Touch "a/f"; Cd "a/b"] FileSystem_init) in
  let c := Rm "../../a" in
  let fs' := (rm fs "../../a").1 in
  reachable fs ∧ exec c fs = Ok (fs', ["Removed: ../../a"]) ∧
  rm_detaches_cursor c fs ∧
  linked (heap FileSystem_init) (root FileSystem_init) (current FileSystem_init) ∧
  (current fs < length (heap fs) ∧ is_file (heap fs !!! current fs) = false) ∧
  (current fs' < length (heap fs') ∧ is_file (heap fs' !!! current fs') = false) ∧
  ((∀ p, c ≠ Cd p) →
     current fs' = current fs ∧
     (linked (heap fs') (root fs') (current fs') ↔
      linked (heap fs) (root fs) (current fs) ∧ ¬ rm_detaches_cursor c fs)) ∧
  ((∃ p, c = Cd p) →
     linked (heap fs) (root fs) (current fs) →
     linked (heap fs') (root fs') (current fs')).
Proof.
  intros fs c fs'. assert (reachable fs) as R by apply reachable_state_of.
  assert (exec c fs = Ok (fs', ["Removed: ../../a"])) as He
    by (vm_compute; reflexivity).
  assert (rm_detaches_cursor c fs) as Hd.
  { exists "../../a", 0, 1. split; [reflexivity |].
    split; [discriminate |]. split; [reflexivity |]. split; [reflexivity |].
    apply (linked_child _ _ 1 "b"); [constructor | reflexivity]. }
  split; [exact R |]. split; [exact He |]. split; [exact Hd |].
  exact (C6_cursor_linked_unless_rm_detaches fs c fs' _ R He).
Defined.
